(** * normalized-cache: the read traversal (src/operations/read.ts)

    A shallow embedding of [executeRead], [traverseEntity], [traverseValue]
    and their helpers, and the properties of the read operation that the
    specification states about them.

    JavaScript values stored in the cache are an inductive type; the result
    objects that a read allocates live in an explicit heap, because the
    source memoizes and returns them by identity; the mutable [ReadContext]
    is threaded through the traversal as state.  Objects are given by their
    own properties, in the order in which JavaScript lists them; where the
    source looks a name up in an ordinary object - the memo, a metadata
    record - the members that the object inherits from [Object.prototype]
    are part of the model.  The recursion of the source
    follows references through the store and is not structural, so the
    traversal takes a recursion budget and answers [None] when the budget is
    exhausted. *)

From Stdlib Require Import ZArith Lia.
From stdpp Require Import base option list strings gmap.

Local Open Scope Z_scope.
Set Warnings "-register-all,-clear-no-such-hyp".
Set Implicit Arguments.

(** ** Values held by the store *)

(** What an entity's [value] (type [unknown] in the source) can hold.
    [VReference k] is the marker object [{___ref: k}] recognised by
    [isReference]; [VObject] is an object carrying the [___expiresAt] and
    [___invalidated] records recognised by [isObjectWithMeta]; [VPlain] is
    any other object.  The data fields of an object are kept in the order in
    which [Object.keys] lists them, the two metadata records are maps.
    [VExpiresAt] and [VInvalidated] are the two records taken as values:
    what [data["___expiresAt"]] and [data["___invalidated"]] evaluate to;
    they carry no metadata of their own. *)
Inductive value : Type :=
| VUndefined
| VNull
| VBoolean (b : bool)
| VNumber (n : Z)
| VString (s : string)
| VReference (ref : string)
| VObject (fields : list (string * value))
          (expiresAt : gmap string Z) (invalidated : gmap string bool)
| VPlain (fields : list (string * value))
| VArray (items : list value)
| VExpiresAt (record : gmap string Z)
| VInvalidated (record : gmap string bool).

Definition isReference (data : value) : bool :=
  match data with VReference _ => true | _ => false end.

Definition isObjectWithMeta (data : value) : bool :=
  match data with VObject _ _ _ => true | _ => false end.

Definition createReference (entityID : string) : value := VReference entityID.

(** Property lookup on a field list: the first binding of [k]. *)
Fixpoint assoc {A : Type} (k : string) (l : list (string * A)) : option A :=
  match l with
  | [] => None
  | (k', a) :: l' => if String.eqb k k' then Some a else assoc k l'
  end.

(** The number that a property key stands for when it is an array index:
    the decimal digits of a number below 2^32 - 1, without leading zero. *)
Fixpoint indexOf (c : Ascii.ascii) (s : string) (i : N) : option N :=
  match s with
  | EmptyString => None
  | String c' s' => if Ascii.eqb c c' then Some i else indexOf c s' (i + 1)%N
  end.

Definition digitOf (c : Ascii.ascii) : option N := indexOf c "0123456789" 0%N.

Fixpoint digitsValue (s : string) (acc : N) : option N :=
  match s with
  | EmptyString => Some acc
  | String c s' =>
      match digitOf c with
      | Some d => digitsValue s' (10 * acc + d)%N
      | None => None
      end
  end.

Definition arrayIndex (k : string) : option N :=
  match k with
  | EmptyString => None
  | String c rest =>
      if bool_decide (digitOf c = Some 0%N)
         && negb (String.eqb rest EmptyString)
      then None
      else match digitsValue k 0%N with
           | Some n => if (4294967295 <=? n)%N then None else Some n
           | None => None
           end
  end.

(** The own properties of a JavaScript object are listed with the array
    indices first, in ascending order, and the other keys after them in the
    order in which they were created. *)
Fixpoint replaceProp {A : Type} (k : string) (a : A) (l : list (string * A))
  : option (list (string * A)) :=
  match l with
  | [] => None
  | (k', a') :: l' =>
      if String.eqb k k' then Some ((k, a) :: l')
      else match replaceProp k a l' with
           | Some l'' => Some ((k', a') :: l'')
           | None => None
           end
  end.

Fixpoint insertIndex {A : Type} (n : N) (k : string) (a : A)
    (l : list (string * A)) : list (string * A) :=
  match l with
  | [] => [(k, a)]
  | (k', a') :: l' =>
      match arrayIndex k' with
      | Some m => if (m <? n)%N then (k', a') :: insertIndex n k a l'
                  else (k, a) :: l
      | None => (k, a) :: l
      end
  end.

(** [result[k] = a] on an object created by [{}], as the list of its own
    properties: an existing property keeps its position; a new array index
    goes among the indices, any other new key last.  The key [__proto__]
    names the accessor that every such object inherits: the assignment
    creates no own property (the prototype is not represented). *)
Definition setProp {A : Type} (k : string) (a : A) (l : list (string * A))
  : list (string * A) :=
  if String.eqb k "__proto__" then l
  else match replaceProp k a l with
       | Some l' => l'
       | None =>
           match arrayIndex k with
           | Some n => insertIndex n k a l
           | None => l ++ [(k, a)]
           end
       end.

(** [hasOwn(data, fieldName)] and [data[fieldName]] on an object with
    metadata: its own properties are the data fields and the two metadata
    records. *)
Definition isMetaKey (fieldName : string) : bool :=
  String.eqb fieldName "___expiresAt" || String.eqb fieldName "___invalidated".

Definition hasOwn (data : value) (fieldName : string) : bool :=
  match data with
  | VObject fields _ _ =>
      isMetaKey fieldName || bool_decide (is_Some (assoc fieldName fields))
  | _ => false
  end.

Definition getField (data : value) (fieldName : string) : value :=
  match data with
  | VObject fields expiresAt invalidated =>
      if String.eqb fieldName "___expiresAt" then VExpiresAt expiresAt
      else if String.eqb fieldName "___invalidated" then
        VInvalidated invalidated
      else default VUndefined (assoc fieldName fields)
  | _ => VUndefined
  end.

(** The names of the properties that an object created by [{}] inherits
    from [Object.prototype]; each of them holds a function or an object,
    which is truthy. *)
Definition objectPrototypeNames : list string :=
  [ "constructor"; "__defineGetter__"; "__defineSetter__"; "hasOwnProperty";
    "__lookupGetter__"; "__lookupSetter__"; "isPrototypeOf";
    "propertyIsEnumerable"; "toString"; "valueOf"; "__proto__";
    "toLocaleString" ].

Definition isInherited (k : string) : bool :=
  existsb (String.eqb k) objectPrototypeNames.

(** [data.___expiresAt[fieldName]] and [data.___invalidated[fieldName]].
    The two records are ordinary objects: a name that a record does not
    hold itself is looked up in [Object.prototype].  For [___expiresAt],
    [None] stands for a value that is not a number: [undefined], or the
    member of [Object.prototype] of that name; the comparisons of the
    source treat them alike.  For [___invalidated], [None] is [undefined],
    and a member of [Object.prototype] is truthy. *)
Definition fieldExpiresAt (data : value) (fieldName : string) : option Z :=
  match data with
  | VObject _ expiresAt _ => expiresAt !! fieldName
  | _ => None
  end.

Definition fieldInvalidated (data : value) (fieldName : string) : option bool :=
  match data with
  | VObject _ _ invalidated =>
      match invalidated !! fieldName with
      | Some b => Some b
      | None => if isInherited fieldName then Some true else None
      end
  | _ => None
  end.

(** The size of a value, for inductions on what the traversal descends
    into: the fields of an object with metadata and the items of an array. *)
Fixpoint vsize (v : value) : nat :=
  match v with
  | VObject fields _ _ =>
      S ((fix fieldsSize (l : list (string * value)) : nat :=
            match l with
            | [] => O
            | (_, v') :: l' => (vsize v' + fieldsSize l')%nat
            end) fields)
  | VArray items =>
      S ((fix itemsSize (l : list value) : nat :=
            match l with
            | [] => O
            | v' :: l' => (vsize v' + itemsSize l')%nat
            end) items)
  | _ => 1%nat
  end.

(** ** Entities and the two stores *)

Record Entity := mkEntity {
  e_id : string;
  e_value : value;
  e_expiresAt : Z;
  e_invalidated : bool;
}.

(** Modelled from the spec: the [Cache] class (src/Cache.ts) is not among
    the sources.  "Two independent stores exist - confirmed and optimistic -
    addressed by the same keys"; [get(key, optimistic) -> Entity?] consults
    the optimistic store when the flag is set and the confirmed one
    otherwise. *)
Record Cache := mkCache {
  entities : gmap string Entity;
  optimisticEntities : gmap string Entity;
}.

Definition get (cache : Cache) (entityID : string) (optimistic : bool)
  : option Entity :=
  if optimistic then optimisticEntities cache !! entityID
  else entities cache !! entityID.

(** ** Results *)

Inductive PathSegment := PField (name : string) | PIndex (i : nat).

Record MissingField := mkMissing { mf_path : list PathSegment }.

Record InvalidField := mkInvalid {
  if_path : list PathSegment;
  if_value : value;
}.

(** What the traversal returns: the stored value itself (line 223, and
    [undefined] at line 115), a result object allocated at line 148 and
    named by its address in the heap of result objects, a fresh array
    (line 212), or the member of [Object.prototype] that line 119 finds in
    the memo under a name that every object inherits. *)
Inductive Result : Type :=
| RData (v : value)
| RObject (l : nat)
| RArray (items : list Result)
| RInherited (name : string).

Definition PlainObject : Type := list (string * Result).

(** ** JavaScript comparisons on [number | undefined] *)

(** [None] stands for a value that is not a number; every comparison with
    it is false, and it is different from every number. *)

Definition strictNe (x : option Z) (n : Z) : bool :=
  match x with Some z => negb (z =? n) | None => true end.

Definition strictEq (x : option Z) (n : Z) : bool :=
  match x with Some z => z =? n | None => false end.

Definition jsLt (x y : option Z) : bool :=
  match x, y with Some a, Some b => a <? b | _, _ => false end.

Definition jsLe (x y : option Z) : bool :=
  match x, y with Some a, Some b => a <=? b | _, _ => false end.

Definition truthy (b : option bool) : bool := default false b.

(** ** Steps that change a state and may run out of budget *)

(** A step of the read: it may change the state, and it yields nothing when
    the recursion budget is exhausted. *)
Definition M (S A : Type) : Type := S -> option (A * S).

Definition ret {S A : Type} (a : A) : M S A := fun st => Some (a, st).

Definition bind {S A B : Type} (m : M S A) (k : A -> M S B) : M S B :=
  fun st => match m st with
            | Some (a, st') => k a st'
            | None => None
            end.

Definition modify {S : Type} (f : S -> S) : M S unit :=
  fun st => Some (tt, f st).

Notation "'let*' x ':=' m 'in' k" := (bind m (fun x => k))
  (at level 10, x name, m at level 100, k at level 200).
Notation "'exec' m 'in' k" := (bind m (fun _ => k))
  (at level 10, m at level 100, k at level 200).

(** ** The schema and the selector, as the read sees them *)

(** A [FieldNode] as the traversal reads it: [alias] stands for
    [selectionField.alias.value] when an alias node is present. *)
Record FieldNode (SelectionSetNode : Type) := mkFieldNode {
  alias : option string;
  selectionSet : option SelectionSetNode;
}.

(** Modelled from the spec: the argument of [identify], "a type + either
    an explicit id or id fields inferable from data"; one [value] stands
    for the id or the data. *)
Record IdentifyOptions (ValueType : Type) := mkIdentify {
  io_type : ValueType;
  io_id : value;
}.

Record ObjectFieldReadContext (ValueType : Type) := mkFieldReadCtx {
  toReference : IdentifyOptions ValueType -> value;
}.

(** A [FieldConfig] as the traversal reads it: the optional nested type
    and the optional computed [read] function. *)
Record FieldConfig (ValueType : Type) := mkFieldConfig {
  fc_type : option ValueType;
  fc_read : option (value -> ObjectFieldReadContext ValueType -> value);
}.

(** The schema types ([ValueType], src/schema/types.ts), the selector
    syntax tree (src/language/ast.ts) and the helpers that read.ts imports
    are declared outside the sources at hand.  The traversal only passes
    the types on to the helpers, so the read is stated over any schema that
    provides them.  [identify] is the method of the cache; it depends on the
    schema the cache was built with, not on the stored entities.
    [getSelectionFields] lists the picked fields in [Object.keys] order. *)
Class Schema := {
  ValueType : Type;
  SelectionSetNode : Type;
  DocumentNode : Type;
  identify : IdentifyOptions ValueType -> option string;
  isValid : ValueType -> value -> bool;
  resolveWrappedType : ValueType -> value -> option ValueType;
  maybeGetfieldType :
    option ValueType -> string -> option (FieldConfig ValueType);
  isArrayType : ValueType -> bool;
  ofType : ValueType -> option ValueType;
  getSelectionSet :
    option DocumentNode -> ValueType -> option SelectionSetNode;
  getSelectionFields :
    option DocumentNode -> option SelectionSetNode -> option ValueType ->
    value -> list (string * FieldNode SelectionSetNode);
}.

(** ** The read operation *)

Section Read.

Context `{Schema}.

(** Modelled from the spec: [resolveEntity] (src/utils/cache.ts) is not
    among the sources.  "Resolve the root entity via [identify]+[get]". *)
Definition resolveEntity (cache : Cache) (type : ValueType) (id : value)
    (optimistic : bool) : option Entity :=
  match identify (mkIdentify type id) with
  | Some entityID => get cache entityID optimistic
  | None => None
  end.

Record ReadOptions := mkReadOptions {
  ro_id : value;
  ro_select : option DocumentNode;
}.

Record ReadResult := mkReadResult {
  r_data : option Result;
  r_entityID : option string;
  r_expiresAt : option Z;
  r_invalidFields : option (list InvalidField);
  r_invalidated : bool;
  r_missingFields : option (list MissingField);
  r_selector : option DocumentNode;
  r_stale : bool;
}.

(** [ctx.fullEntityResults[id]] when it is truthy: the memo is created by
    [{}] (line 77), its own properties map entity ids to the addresses of
    result objects, and a name that it does not hold itself is looked up in
    [Object.prototype]. *)
Definition memoized (memo : gmap string nat) (id : string) : option Result :=
  match memo !! id with
  | Some l => Some (RObject l)
  | None => if isInherited id then Some (RInherited id) else None
  end.

(** [fullEntityResults]: the own properties of the memo. *)
Record ReadContext := mkReadContext {
  ctx_cache : Cache;
  ctx_expiresAt : option Z;
  ctx_invalidFields : list InvalidField;
  ctx_invalidated : bool;
  ctx_missingFields : list MissingField;
  ctx_fullEntityResults : gmap string nat;
  ctx_optimistic : bool;
  ctx_path : list PathSegment;
  ctx_selector : option DocumentNode;
}.

(** One pair of calls [checkExpiresAt]; [checkInvalidated] of the source:
    on an entity (lines 122-123) or on a field of an object (lines
    186-187), with the arguments the two calls received. *)
Inductive Visit :=
| EntityVisit (entityID : string) (expiresAt : Z) (invalidated : bool)
| FieldVisit (path : list PathSegment)
             (expiresAt : option Z) (invalidated : option bool).

(** The state of a read in progress: the context of the source, the heap
    of result objects allocated so far, and a ghost log of the visits
    (the log is never read by the traversal). *)
Record State := mkState {
  st_ctx : ReadContext;
  st_heap : list PlainObject;
  st_visits : list Visit;
}.

Definition onCtx (f : ReadContext -> ReadContext) (st : State) : State :=
  mkState (f (st_ctx st)) (st_heap st) (st_visits st).

Definition setExpiresAt (e : option Z) (ctx : ReadContext) : ReadContext :=
  mkReadContext (ctx_cache ctx) e (ctx_invalidFields ctx)
    (ctx_invalidated ctx) (ctx_missingFields ctx)
    (ctx_fullEntityResults ctx) (ctx_optimistic ctx) (ctx_path ctx)
    (ctx_selector ctx).

Definition setInvalidFields (l : list InvalidField) (ctx : ReadContext)
  : ReadContext :=
  mkReadContext (ctx_cache ctx) (ctx_expiresAt ctx) l
    (ctx_invalidated ctx) (ctx_missingFields ctx)
    (ctx_fullEntityResults ctx) (ctx_optimistic ctx) (ctx_path ctx)
    (ctx_selector ctx).

Definition setInvalidated (b : bool) (ctx : ReadContext) : ReadContext :=
  mkReadContext (ctx_cache ctx) (ctx_expiresAt ctx) (ctx_invalidFields ctx)
    b (ctx_missingFields ctx)
    (ctx_fullEntityResults ctx) (ctx_optimistic ctx) (ctx_path ctx)
    (ctx_selector ctx).

Definition setMissingFields (l : list MissingField) (ctx : ReadContext)
  : ReadContext :=
  mkReadContext (ctx_cache ctx) (ctx_expiresAt ctx) (ctx_invalidFields ctx)
    (ctx_invalidated ctx) l
    (ctx_fullEntityResults ctx) (ctx_optimistic ctx) (ctx_path ctx)
    (ctx_selector ctx).

Definition setFullEntityResults (m : gmap string nat) (ctx : ReadContext)
  : ReadContext :=
  mkReadContext (ctx_cache ctx) (ctx_expiresAt ctx) (ctx_invalidFields ctx)
    (ctx_invalidated ctx) (ctx_missingFields ctx)
    m (ctx_optimistic ctx) (ctx_path ctx)
    (ctx_selector ctx).

Definition setPath (p : list PathSegment) (ctx : ReadContext)
  : ReadContext :=
  mkReadContext (ctx_cache ctx) (ctx_expiresAt ctx) (ctx_invalidFields ctx)
    (ctx_invalidated ctx) (ctx_missingFields ctx)
    (ctx_fullEntityResults ctx) (ctx_optimistic ctx) p
    (ctx_selector ctx).

(** *** The helpers at the end of read.ts *)

Definition addMissingField (ctx : ReadContext) : ReadContext :=
  setMissingFields (ctx_missingFields ctx ++ [mkMissing (ctx_path ctx)]) ctx.

Definition addInvalidField (ctx : ReadContext) (v : value) : ReadContext :=
  setInvalidFields (ctx_invalidFields ctx ++ [mkInvalid (ctx_path ctx) v]) ctx.

Definition checkInvalidated (ctx : ReadContext) (invalidated : option bool)
  : ReadContext :=
  if truthy invalidated then setInvalidated true ctx else ctx.

Definition checkExpiresAt (ctx : ReadContext) (expiresAt : option Z)
  : ReadContext :=
  if strictNe expiresAt (-1)
     && (strictEq (ctx_expiresAt ctx) (-1)
         || jsLt expiresAt (ctx_expiresAt ctx))
  then setExpiresAt expiresAt ctx
  else ctx.

(** [ctx.path.push(seg)] and [ctx.path.pop()]. *)
Definition pushPath (seg : PathSegment) (ctx : ReadContext) : ReadContext :=
  setPath (ctx_path ctx ++ [seg]) ctx.

Definition popPath (ctx : ReadContext) : ReadContext :=
  setPath (removelast (ctx_path ctx)) ctx.

(** The arguments that the two checks of a visit receive. *)
Definition visitExpiresAt (v : Visit) : option Z :=
  match v with
  | EntityVisit _ expiresAt _ => Some expiresAt
  | FieldVisit _ expiresAt _ => expiresAt
  end.

Definition visitInvalidated (v : Visit) : option bool :=
  match v with
  | EntityVisit _ _ invalidated => Some invalidated
  | FieldVisit _ _ invalidated => invalidated
  end.

(** The two checks of one visit, and its entry in the ghost log. *)
Definition check (v : Visit) (st : State) : State :=
  mkState (checkInvalidated (checkExpiresAt (st_ctx st) (visitExpiresAt v))
             (visitInvalidated v))
          (st_heap st) (st_visits st ++ [v]).

(** [const result: PlainObject = {}]: the new object's address. *)
Definition alloc (st : State) : nat * State :=
  (length (st_heap st),
   mkState (st_ctx st) (st_heap st ++ [[]]) (st_visits st)).

(** [result[alias] = r] on the result object at address [l]. *)
Definition assign (l : nat) (k : string) (r : Result) (st : State) : State :=
  mkState (st_ctx st) (alter (setProp k r) l (st_heap st)) (st_visits st).

(** *** The traversal *)

(** [typeField && typeField.type]. *)
Definition fieldType (typeField : option (FieldConfig ValueType))
  : option ValueType :=
  match typeField with Some f => fc_type f | None => None end.

(** The context handed to a computed [read] function (lines 172-177); an
    empty key is falsy. *)
Definition fieldReadCtx : ObjectFieldReadContext ValueType :=
  mkFieldReadCtx (fun options =>
    match identify options with
    | Some entityID =>
        if String.eqb entityID "" then VUndefined
        else createReference entityID
    | None => VUndefined
    end).

(** Lines 166-183: the value of a selected field, [None] when
    [fieldValueFound] stays false. *)
Definition resolveField (typeField : option (FieldConfig ValueType))
    (data : value) (fieldName : string) : option value :=
  match typeField with
  | Some {| fc_read := Some read |} => Some (read data fieldReadCtx)
  | _ => if hasOwn data fieldName then Some (getField data fieldName)
         else None
  end.

(** Lines 139-145: the type the traversal goes on with, and the record of
    an invalid value. *)
Definition validate (type : option ValueType) (data : value) (st : State)
  : option ValueType * State :=
  match type with
  | Some t =>
      if isValid t data then (resolveWrappedType t data, st)
      else (Some t, onCtx (fun ctx => addInvalidField ctx data) st)
  | None => (None, st)
  end.

(** [isArrayType(type) ? type.ofType : undefined]. *)
Definition elementType (type : option ValueType) : option ValueType :=
  match type with
  | Some t => if isArrayType t then ofType t else None
  | None => None
  end.

Section Body.

(** [traverseValue] at the remaining budget. *)
Variable rec :
  option SelectionSetNode -> option ValueType -> option Entity -> value ->
  M State Result.

(** Lines 105-126: [traverseEntity]; the test of line 118 is [memoized]. *)
Definition traverseEntityWith (entityID : string) (type : option ValueType)
    (selectionSet : option SelectionSetNode) : M State Result :=
  fun st =>
    match get (ctx_cache (st_ctx st)) entityID (ctx_optimistic (st_ctx st)) with
    | None => Some (RData VUndefined, onCtx addMissingField st)
    | Some entity =>
        match selectionSet,
              memoized (ctx_fullEntityResults (st_ctx st)) (e_id entity) with
        | None, Some r => Some (r, st)
        | _, _ =>
            rec selectionSet type (Some entity) (e_value entity)
              (check (EntityVisit (e_id entity) (e_expiresAt entity)
                        (e_invalidated entity)) st)
        end
    end.

(** Lines 185-199: a field whose value was found. *)
Definition visitField (result : nat)
    (typeField : option (FieldConfig ValueType))
    (data : value) (fieldName : string)
    (selectionField : FieldNode SelectionSetNode) (fieldValue : value)
  : M State unit :=
  exec modify (fun st =>
         check (FieldVisit (ctx_path (st_ctx st))
                  (fieldExpiresAt data fieldName)
                  (fieldInvalidated data fieldName)) st) in
  let* r := rec (selectionSet selectionField) (fieldType typeField) None
              fieldValue in
  modify (assign result (default fieldName (alias selectionField)) r).

(** One turn of the loop of lines 161-205. *)
Definition fieldStep (result : nat) (type : option ValueType) (data : value)
    (fieldName : string) (selectionField : FieldNode SelectionSetNode)
  : M State unit :=
  exec modify (onCtx (pushPath (PField fieldName))) in
  let typeField := maybeGetfieldType type fieldName in
  exec
    match resolveField typeField data fieldName with
    | Some fieldValue =>
        visitField result typeField data fieldName selectionField fieldValue
    | None => modify (onCtx addMissingField)
    end in
  modify (onCtx popPath).

Fixpoint forEachField (result : nat) (type : option ValueType) (data : value)
    (selectionFields : list (string * FieldNode SelectionSetNode))
  : M State unit :=
  match selectionFields with
  | [] => ret tt
  | (fieldName, selectionField) :: rest =>
      exec fieldStep result type data fieldName selectionField in
      forEachField result type data rest
  end.

(** One turn of the loop of lines 214-218. *)
Definition itemStep (selectionSet : option SelectionSetNode)
    (ofType' : option ValueType) (i : nat) (item : value) : M State Result :=
  exec modify (onCtx (pushPath (PIndex i))) in
  let* r := rec selectionSet ofType' None item in
  exec modify (onCtx popPath) in
  ret r.

Fixpoint forEachItem (selectionSet : option SelectionSetNode)
    (ofType' : option ValueType) (i : nat) (items : list value)
  : M State (list Result) :=
  match items with
  | [] => ret []
  | item :: rest =>
      let* r := itemStep selectionSet ofType' i item in
      let* rs := forEachItem selectionSet ofType' (S i) rest in
      ret (r :: rs)
  end.

(** Lines 147-152: allocate the result object and, for an entity selected
    without selection set, memoize it.  Line 151 is reached with an entity
    and without selection set only after the test of line 118 has failed
    for the entity's id, so the id is no name that the memo inherits and
    the assignment creates an own property. *)
Definition newResult (selectionSet : option SelectionSetNode)
    (entity : option Entity) : M State nat :=
  fun st =>
    let (l, st1) := alloc st in
    match entity, selectionSet with
    | Some e, None =>
        Some (l, onCtx (fun ctx =>
                   setFullEntityResults
                     (<[e_id e := l]> (ctx_fullEntityResults ctx)) ctx) st1)
    | _, _ => Some (l, st1)
    end.

(** Lines 147-223: the result for an object with metadata, an array, or
    anything else. *)
Definition traverseShape (selectionSet : option SelectionSetNode)
    (type : option ValueType) (entity : option Entity) (data : value)
  : M State Result :=
  match data with
  | VObject _ _ _ =>
      let* result := newResult selectionSet entity in
      let* st := (fun st => Some (st, st)) in
      exec forEachField result type data
             (getSelectionFields (ctx_selector (st_ctx st)) selectionSet
                type data) in
      ret (RObject result)
  | VArray items =>
      let* rs := forEachItem selectionSet (elementType type) 0%nat items in
      ret (RArray rs)
  | _ => ret (RData data)
  end.

(** Lines 139-223: what [traverseValue] does with a value that is not a
    reference. *)
Definition traverseData (selectionSet : option SelectionSetNode)
    (type : option ValueType) (entity : option Entity) (data : value)
  : M State Result :=
  fun st =>
    let (type', st') := validate type data st in
    traverseShape selectionSet type' entity data st'.

Definition traverseValueWith (selectionSet : option SelectionSetNode)
    (type : option ValueType) (entity : option Entity) (data : value)
  : M State Result :=
  match data with
  | VReference ref => traverseEntityWith ref type selectionSet
  | _ => traverseData selectionSet type entity data
  end.

End Body.

Fixpoint traverseValue (fuel : nat) (selectionSet : option SelectionSetNode)
    (type : option ValueType) (entity : option Entity) (data : value)
  : M State Result :=
  match fuel with
  | O => fun _ => None
  | S fuel' =>
      traverseValueWith (traverseValue fuel') selectionSet type entity data
  end.

Definition traverseEntity (fuel : nat) (entityID : string)
    (type : option ValueType) (selectionSet : option SelectionSetNode)
  : M State Result :=
  traverseEntityWith (traverseValue fuel) entityID type selectionSet.

(** What a read leaves behind: the [ReadResult], the cache after the read,
    the heap in which the object addresses of [r_data] are to be read, and
    the ghost log of visits. *)
Record Outcome := mkOutcome {
  out_result : ReadResult;
  out_cache : Cache;
  out_heap : list PlainObject;
  out_visits : list Visit;
}.

Definition nonEmpty {A : Type} (l : list A) : option (list A) :=
  match l with [] => None | _ => Some l end.

(** [now] is the value of [Date.now()] at line 100. *)
Definition executeRead (now : Z) (fuel : nat) (cache : Cache)
    (type : ValueType) (optimistic : bool) (options : ReadOptions)
  : option Outcome :=
  match resolveEntity cache type (ro_id options) optimistic with
  | None =>
      Some (mkOutcome
              (mkReadResult None None (Some (-1)) None false None
                 (ro_select options) true)
              cache [] [])
  | Some entity =>
      let ctx :=
        mkReadContext cache (Some (-1)) [] false [] ∅ optimistic []
          (ro_select options) in
      let selectionSet := getSelectionSet (ro_select options) type in
      match traverseEntity fuel (e_id entity) (Some type) selectionSet
              (mkState ctx [] []) with
      | None => None
      | Some (data, st) =>
          let ctx := st_ctx st in
          let invalidated := ctx_invalidated ctx in
          let expiresAt := ctx_expiresAt ctx in
          Some (mkOutcome
                  (mkReadResult (Some data) (Some (e_id entity)) expiresAt
                     (nonEmpty (ctx_invalidFields ctx)) invalidated
                     (nonEmpty (ctx_missingFields ctx)) (ro_select options)
                     (invalidated
                      || (strictNe expiresAt (-1)
                          && jsLe expiresAt (Some now))))
                  (ctx_cache ctx) (st_heap st) (st_visits st))
      end
  end.

End Read.

(** ** Notions used to state the properties *)

Section Notions.

Context `{Schema}.

(** The state in which [executeRead] starts the traversal (lines 71-81). *)
Definition initialState (cache : Cache) (optimistic : bool)
    (select : option DocumentNode) : State :=
  mkState (mkReadContext cache (Some (-1)) [] false [] ∅ optimistic [] select)
    [] [].

(** How a traversal moves the state: by the mutations of the source, each
    segment pushed on the path being popped again. *)
Inductive steps : State -> State -> Prop :=
| steps_refl st : steps st st
| steps_trans st1 st2 st3 : steps st1 st2 -> steps st2 st3 -> steps st1 st3
| steps_missing st : steps st (onCtx addMissingField st)
| steps_invalid st v : steps st (onCtx (fun ctx => addInvalidField ctx v) st)
| steps_check st v : steps st (check v st)
| steps_alloc st : steps st (alloc st).2
| steps_memo st k l :
    steps st
      (onCtx (fun ctx =>
                setFullEntityResults (<[k := l]> (ctx_fullEntityResults ctx))
                  ctx) st)
| steps_assign st l k r : steps st (assign l k r st)
| steps_scope st st' seg :
    steps (onCtx (pushPath seg) st) st' -> steps st (onCtx popPath st').

(** What one call of [checkExpiresAt] makes of the context's timestamp. *)
Definition stepExpiresAt (cur e : option Z) : option Z :=
  if strictNe e (-1) && (strictEq cur (-1) || jsLt e cur) then e else cur.

(** The timestamps that were defined among the visits, in order. *)
Definition stamps (vs : list Visit) : list Z :=
  omap visitExpiresAt vs.

(** The minimum of the timestamps other than "no expiry", and "no expiry"
    when there is none. *)
Definition minExpiry (l : list Z) : Z :=
  match filter (fun t => t ≠ -1) l with
  | [] => -1
  | t :: ts => foldr Z.min t ts
  end.

Definition anyInvalidated (vs : list Visit) : bool :=
  existsb (fun v => truthy (visitInvalidated v)) vs.

(** The visits of fields, and the visit of the root entity: the first one
    of a read. *)
Definition isFieldVisit (v : Visit) : bool :=
  match v with FieldVisit _ _ _ => true | EntityVisit _ _ _ => false end.

Definition rootAndFields (vs : list Visit) : list Visit :=
  match vs with
  | [] => []
  | root :: rest => root :: List.filter isFieldVisit rest
  end.

(** *** The entities traversed and the fields visited *)

(** The type with which the traversal of a value goes on: "union and
    non-nullable wrapper types are resolved to the concrete member" for a
    valid value; an invalid value keeps its declared type. *)
Definition typeOf (type : option ValueType) (data : value)
  : option ValueType :=
  match type with
  | Some t => if isValid t data then resolveWrappedType t data else Some t
  | None => None
  end.

(** In the spec's words: "if the current node is a Reference, recurse into
    the referenced entity using the same selection node"; "if the current
    node is a composite value: for each field the current selection picks,
    resolve the field's value"; "if the current node is a sequence, apply
    the same selection (and, if the static type is an array type, its
    element type) to every element"; "when an entity is visited with no
    selector, the result is memoized per entity key; if the same entity is
    revisited under the same no-selector condition, the memoized result is
    returned instead of recursing again".

    [visited] lists, in the order of the traversal, the entities that are
    traversed, each with its own [expiresAt] and [invalidated], and the
    fields that are visited, each with its path and with what the object
    records for it.  It runs over the set of the entity keys memoized so
    far; an entity met without selection set is answered from the memo,
    and so not traversed, when its key is in that set or names a member
    of [Object.prototype]. *)
Section Visited.

Variable cache : Cache.
Variable optimistic : bool.
Variable selector : option DocumentNode.

Section VisitedBody.

Variable rec :
  option SelectionSetNode -> option ValueType -> option Entity -> value ->
  list PathSegment -> M (gset string) (list Visit).

Definition visitedEntity (entityID : string) (type : option ValueType)
    (selectionSet : option SelectionSetNode) (p : list PathSegment)
  : M (gset string) (list Visit) :=
  fun seen =>
    match get cache entityID optimistic with
    | None => Some ([], seen)
    | Some entity =>
        match selectionSet,
              bool_decide (e_id entity ∈ seen) || isInherited (e_id entity) with
        | None, true => Some ([], seen)
        | _, _ =>
            (let* vs := rec selectionSet type (Some entity) (e_value entity)
                          p in
             ret (EntityVisit (e_id entity) (e_expiresAt entity)
                    (e_invalidated entity) :: vs)) seen
        end
    end.

Definition visitedField (type : option ValueType) (data : value)
    (p : list PathSegment) (fieldName : string)
    (selectionField : FieldNode SelectionSetNode)
  : M (gset string) (list Visit) :=
  let typeField := maybeGetfieldType type fieldName in
  match resolveField typeField data fieldName with
  | Some fieldValue =>
      let* vs := rec (selectionSet selectionField) (fieldType typeField) None
                   fieldValue (p ++ [PField fieldName]) in
      ret (FieldVisit (p ++ [PField fieldName])
             (fieldExpiresAt data fieldName) (fieldInvalidated data fieldName)
           :: vs)
  | None => ret []
  end.

Fixpoint visitedFields (type : option ValueType) (data : value)
    (p : list PathSegment)
    (selectionFields : list (string * FieldNode SelectionSetNode))
  : M (gset string) (list Visit) :=
  match selectionFields with
  | [] => ret []
  | (fieldName, selectionField) :: rest =>
      let* vs := visitedField type data p fieldName selectionField in
      let* ws := visitedFields type data p rest in
      ret (vs ++ ws)
  end.

Fixpoint visitedItems (selectionSet : option SelectionSetNode)
    (type : option ValueType) (p : list PathSegment) (i : nat)
    (items : list value) : M (gset string) (list Visit) :=
  match items with
  | [] => ret []
  | item :: rest =>
      let* vs := rec selectionSet type None item (p ++ [PIndex i]) in
      let* ws := visitedItems selectionSet type p (S i) rest in
      ret (vs ++ ws)
  end.

Definition visitedWith (selectionSet : option SelectionSetNode)
    (type : option ValueType) (entity : option Entity) (data : value)
    (p : list PathSegment) : M (gset string) (list Visit) :=
  match data with
  | VReference ref => visitedEntity ref type selectionSet p
  | VObject _ _ _ =>
      let type' := typeOf type data in
      exec modify (fun seen =>
             match entity, selectionSet with
             | Some e, None => {[ e_id e ]} ∪ seen
             | _, _ => seen
             end) in
      visitedFields type' data p
        (getSelectionFields selector selectionSet type' data)
  | VArray items =>
      visitedItems selectionSet
        (match typeOf type data with
         | Some t => if isArrayType t then ofType t else None
         | None => None
         end) p 0%nat items
  | _ => ret []
  end.

End VisitedBody.

Fixpoint visited (fuel : nat) (selectionSet : option SelectionSetNode)
    (type : option ValueType) (entity : option Entity) (data : value)
    (p : list PathSegment) : M (gset string) (list Visit) :=
  match fuel with
  | O => fun _ => None
  | S fuel' => visitedWith (visited fuel') selectionSet type entity data p
  end.

End Visited.

(** The entities traversed and the fields visited by a read: none when
    the root is not resolved, and else those of the traversal of the root,
    which starts at the empty path with an empty memo. *)
Definition readVisits (fuel : nat) (cache : Cache) (type : ValueType)
    (optimistic : bool) (options : ReadOptions) : option (list Visit) :=
  match resolveEntity cache type (ro_id options) optimistic with
  | None => Some []
  | Some entity =>
      fst <$> visited cache optimistic (ro_select options) (S fuel)
                (getSelectionSet (ro_select options) type) (Some type) None
                (VReference (e_id entity)) [] ∅
  end.

(** A state of a read of [cache] with the selector [selector]. *)
Definition within (cache : Cache) (optimistic : bool)
    (selector : option DocumentNode) (st : State) : Prop :=
  ctx_cache (st_ctx st) = cache /\
  ctx_optimistic (st_ctx st) = optimistic /\
  ctx_selector (st_ctx st) = selector.

(** The entity keys that the memo holds. *)
Definition seenBy (st : State) : gset string :=
  dom (ctx_fullEntityResults (st_ctx st)).

(** From [st] to [st'] the checks that were made are those of the visits
    that [m] lists from the path and the memo of [st], and the memo of
    [st'] holds the keys that [m] ends with. *)
Definition makes (m : list PathSegment -> M (gset string) (list Visit))
    (st st' : State) : Prop :=
  exists vs,
    m (ctx_path (st_ctx st)) (seenBy st) = Some (vs, seenBy st') /\
    st_visits st' = st_visits st ++ vs.

(** The elements of an array met at path [p] are traversed from left to
    right, element [i] with [i] pushed on [p], each from the state the
    previous one left; all with the same selection set and element type. *)
Inductive eachItem (fuel : nat) (selectionSet : option SelectionSetNode)
    (type : option ValueType) (p : list PathSegment)
  : nat -> list value -> list Result -> State -> State -> Prop :=
| eachItem_nil i st : eachItem fuel selectionSet type p i [] [] st st
| eachItem_cons i item items r rs st st1 st2 :
    ctx_path (st_ctx st) = p ->
    traverseValue fuel selectionSet type None item
      (onCtx (setPath (p ++ [PIndex i])) st) = Some (r, st1) ->
    eachItem fuel selectionSet type p (S i) items rs (onCtx popPath st1) st2 ->
    eachItem fuel selectionSet type p i (item :: items) (r :: rs) st st2.

(** In the spec's words: the value of a selected field is resolved "via its
    computed [read] function if declared, else the raw stored value if
    present"; the function is "invoked with the entity's raw value and a
    helper capable of turning a type+id pair into a Reference". *)
Inductive fieldValueSpec (type : option ValueType) (data : value)
    (fieldName : string) : value -> Prop :=
| fieldValue_computed fc read :
    maybeGetfieldType type fieldName = Some fc ->
    fc_read fc = Some read ->
    fieldValueSpec type data fieldName (read data fieldReadCtx)
| fieldValue_stored :
    (forall fc, maybeGetfieldType type fieldName = Some fc ->
                fc_read fc = None) ->
    hasOwn data fieldName = true ->
    fieldValueSpec type data fieldName (getField data fieldName).

(** A value that the traversal returns as it is. *)
Definition isLeaf (data : value) : bool :=
  match data with
  | VReference _ | VObject _ _ _ | VArray _ => false
  | _ => true
  end.

(** The result object of an object whose selected fields are not composite:
    the fields that are found, assigned under their aliases one after the
    other, in the order of the selection, to the object [o]. *)
Definition flatObject (ty : option ValueType) (data : value)
    (fs : list (string * FieldNode SelectionSetNode)) (o : PlainObject)
  : PlainObject :=
  fold_left
    (fun o nf =>
       match resolveField (maybeGetfieldType ty nf.1) data nf.1 with
       | Some v => setProp (default nf.1 (alias nf.2)) (RData v) o
       | None => o
       end) fs o.

(** The selected fields that are not found, as missing fields below the
    path [p], in the order of the selection. *)
Fixpoint missingOf (p : list PathSegment) (ty : option ValueType)
    (data : value) (fs : list (string * FieldNode SelectionSetNode))
  : list MissingField :=
  match fs with
  | [] => []
  | nf :: rest =>
      match resolveField (maybeGetfieldType ty nf.1) data nf.1 with
      | Some _ => missingOf p ty data rest
      | None => mkMissing (p ++ [PField nf.1]) :: missingOf p ty data rest
      end
  end.

(** The traversal of a value returns within some budget. *)
Definition Terminates (sel : option SelectionSetNode) (ty : option ValueType)
    (ent : option Entity) (data : value) (st : State) : Prop :=
  exists fuel r st', traverseValue fuel sel ty ent data st = Some (r, st').

(** The depth that is left in a selection, given the size of selection
    sets. *)
Definition selMeasure (selSize : SelectionSetNode -> nat)
    (sel : option SelectionSetNode) : nat :=
  match sel with
  | None => O
  | Some ss => S (selSize ss)
  end.

(** The ids of the entities of the consulted store, and how many of them
    the memo does not hold yet. *)
Definition storeIds (cache : Cache) (optimistic : bool) : gset string :=
  list_to_set
    ((fun kv => e_id kv.2)
       <$> map_to_list (if optimistic then optimisticEntities cache
                        else entities cache)).

Definition unmemoized (cache : Cache) (optimistic : bool) (st : State) : nat :=
  size (storeIds cache optimistic
          ∖ dom (ctx_fullEntityResults (st_ctx st))).

(** A state of a read of [cache] in which at most [u] entities are not
    memoized. *)
Definition reading (cache : Cache) (optimistic : bool) (u : nat) (st : State)
  : Prop :=
  ctx_cache (st_ctx st) = cache /\
  ctx_optimistic (st_ctx st) = optimistic /\
  (unmemoized cache optimistic st <= u)%nat.

(** From [st] to [st'] the store is the same and the memo has only grown. *)
Definition grows (st st' : State) : Prop :=
  ctx_cache (st_ctx st') = ctx_cache (st_ctx st) /\
  ctx_optimistic (st_ctx st') = ctx_optimistic (st_ctx st) /\
  dom (ctx_fullEntityResults (st_ctx st))
    ⊆ dom (ctx_fullEntityResults (st_ctx st')).

End Notions.

(** ** A small schema to run the read on *)

Module Sample.

(** Modelled from the spec: the selector syntax tree, "Document ->
    SelectionSet -> [Field]; a Field has a name (or wildcard), optional
    alias and optional nested SelectionSet". *)
Inductive Selection : Type :=
| Star
| Field (name : string) (alias : option string) (sub : option (list Selection)).

Definition SelectionSet : Type := list Selection.

Fixpoint selectionSize (s : Selection) : nat :=
  match s with
  | Star => 1%nat
  | Field _ _ None => 1%nat
  | Field _ _ (Some sub) => S (list_sum (map selectionSize sub))
  end.

Definition setSize (sels : SelectionSet) : nat :=
  list_sum (map selectionSize sels).

(** Type names stand for the schema types; the field configurations are
    given by [fieldConfig] below. *)
Inductive Ty := Named (name : string) | ArrayOf (item : Ty) | StringTy.

Definition identifyByName (o : IdentifyOptions Ty) : option string :=
  match io_type o, io_id o with
  | Named n, VString i => Some (n +:+ ":" +:+ i)
  | _, _ => None
  end.

Definition isOfType (t : Ty) (v : value) : bool :=
  match t, v with
  | StringTy, VString _ => true
  | ArrayOf _, VArray _ => true
  | Named name, VArray _ => String.eqb name "Authors"
  | Named name, VObject _ _ _ => negb (String.eqb name "Authors")
  | _, _ => false
  end.

(** Post.title is a string; Post.author is computed from Post.authorId as
    in the README; Post.shout is computed and yields nothing. *)
Definition fieldConfig (t : option Ty) (fieldName : string)
  : option (FieldConfig Ty) :=
  match t with
  | Some (Named name) =>
      if negb (String.eqb name "Post") then None
      else if String.eqb fieldName "title" then
        Some (mkFieldConfig (Some StringTy) None)
      else if String.eqb fieldName "author" then
        Some (mkFieldConfig (Some (Named "Author"))
                (Some (fun post ctx =>
                         toReference ctx
                           (mkIdentify (Named "Author")
                              (getField post "authorId")))))
      else if String.eqb fieldName "shout" then
        Some (mkFieldConfig None (Some (fun _ _ => VUndefined)))
      else None
  | _ => None
  end.

Definition fieldsOfData (data : value)
  : list (string * FieldNode SelectionSet) :=
  match data with
  | VObject fields _ _ => map (fun kv => (kv.1, mkFieldNode None None)) fields
  | _ => []
  end.

Fixpoint pick (data : value) (sels : list Selection)
    (acc : list (string * FieldNode SelectionSet))
  : list (string * FieldNode SelectionSet) :=
  match sels with
  | [] => acc
  | Star :: rest =>
      pick data rest
        (fold_left (fun a kv => match assoc kv.1 a with
                                | Some _ => a
                                | None => a ++ [kv]
                                end) (fieldsOfData data) acc)
  | Field name al sub :: rest =>
      pick data rest (setProp name (mkFieldNode al sub) acc)
  end.

(** Modelled from the spec: the fields a selection picks - "explicit field,
    aliased field, or everything when [*] is present"; without a selection
    set, every field of the value. *)
Definition selectionFields (_ : option SelectionSet)
    (selectionSet : option SelectionSet) (_ : option Ty) (data : value)
  : list (string * FieldNode SelectionSet) :=
  match selectionSet with
  | Some sels => pick data sels []
  | None => fieldsOfData data
  end.

#[export] Instance schema : Schema := {|
  ValueType := Ty;
  SelectionSetNode := SelectionSet;
  DocumentNode := SelectionSet;
  identify := identifyByName;
  isValid := isOfType;
  resolveWrappedType := fun t _ => Some t;
  maybeGetfieldType := fieldConfig;
  isArrayType := fun t => match t with ArrayOf _ => true | _ => false end;
  ofType := fun t => match t with ArrayOf i => Some i | _ => None end;
  getSelectionSet := fun select _ => select;
  getSelectionFields := selectionFields;
|}.

(** An object whose fields never expire and are not invalidated. *)
Definition obj (fields : list (string * value)) : value :=
  VObject fields (list_to_map (map (fun kv => (kv.1, -1)) fields))
    (list_to_map (map (fun kv => (kv.1, false)) fields)).

Definition store (es : list Entity) : Cache :=
  mkCache (list_to_map (map (fun e => (e_id e, e)) es)) ∅.

(** Two authors that reference each other. *)
Definition cyclic : Cache :=
  store [ mkEntity "Author:a" (obj [("name", VString "A");
                                    ("friend", VReference "Author:b")])
            (-1) false;
          mkEntity "Author:b" (obj [("name", VString "B");
                                    ("friend", VReference "Author:a")])
            (-1) false ].

(** An array-valued entity that holds a reference to itself. *)
Definition selfList : Cache :=
  store [ mkEntity "Authors:x" (VArray [VReference "Authors:x"]) (-1) false ].

(** A comment whose author entity expires at time 50; no field expires. *)
Definition expiring : Cache :=
  store [ mkEntity "Comment:1" (obj [("text", VString "T");
                                     ("author", VReference "Author:b")])
            (-1) false;
          mkEntity "Author:b" (obj [("name", VString "B")]) 50 false ].

(** A post whose [authorId] names the author that [expiring] stores. *)
Definition signedPost : value :=
  obj [("title", VString "T"); ("authorId", VString "b")].

(** A post whose [authorId] names an author that is not stored. *)
Definition orphanPost : value :=
  obj [("title", VString "T"); ("authorId", VString "z")].

Definition orphan : Cache :=
  store [ mkEntity "Post:1" orphanPost (-1) false ].

(** A post whose title is not a string, is invalidated and expired at 7,
    and whose tags hold a reference to a tag that is not stored. *)
Definition stalePost : Cache :=
  store [ mkEntity "Post:1"
            (VObject
               [("title", VNumber 3);
                ("tags", VArray [VString "a"; VReference "Tag:q";
                                 VString "b"])]
               {[ "title" := 7; "tags" := -1 ]}
               {[ "title" := true; "tags" := false ]})
            (-1) false ].

(** An invalidated entity whose key is the name of a function that every
    object inherits. *)
Definition shadowed : Cache :=
  store [ mkEntity "toString" (obj [("name", VString "N")]) 7 true ].

(** A post with a field whose name every object inherits, and for which
    no invalidation is recorded. *)
Definition oddlyNamed : Cache :=
  store [ mkEntity "Post:1"
            (VObject [("valueOf", VString "v")] {[ "valueOf" := -1 ]} ∅)
            (-1) false ].

(** A post whose title expired at time 7. *)
Definition expiredTitle : Cache :=
  store [ mkEntity "Post:1"
            (VObject [("title", VString "T")] {[ "title" := 7 ]}
               {[ "title" := false ]})
            (-1) false ].

(** A state of a read of [cyclic] in which author b has been met without
    selection set: its result object, still empty, is in the memo. *)
Definition metB : State :=
  onCtx (setFullEntityResults {[ "Author:b" := 0%nat ]})
    (alloc (initialState cyclic false None)).2.

(** The state of a read of [stalePost] below a field, with one result
    object allocated. *)
Definition inField : State :=
  (alloc (onCtx (pushPath (PField "x")) (initialState stalePost false None))).2.

Definition select (fields : list string) : option SelectionSet :=
  Some (map (fun f => Field f None None) fields).

End Sample.

(** * Properties of the read *)

Section Facts.

Context `{Schema}.

(** ** The state monad *)

Lemma bind_Some {S A B : Type} (m : M S A) (k : A -> M S B) st b st' :
  bind m k st = Some (b, st') <->
  exists a st1, m st = Some (a, st1) /\ k a st1 = Some (b, st').
Proof.
  unfold bind. split.
  - destruct (m st) as [[a st1]|] eqn:E; [|discriminate].
    intros Hk. exists a, st1. split; [reflexivity | exact Hk].
  - intros (a & st1 & Hm & Hk). rewrite Hm. exact Hk.
Qed.

Lemma bind_modify {S B : Type} (f : S -> S) (k : unit -> M S B) st :
  bind (modify f) k st = k tt (f st).
Proof. reflexivity. Qed.

(** ** The memo *)

Lemma memoized_None memo id :
  memoized memo id = None <-> memo !! id = None /\ isInherited id = false.
Proof.
  unfold memoized. destruct (memo !! id) as [l|]; [|destruct (isInherited id)];
    split; (intros [? ?] || intros ?); (done || auto).
Qed.

Lemma memoized_own memo id l :
  memo !! id = Some l -> memoized memo id = Some (RObject l).
Proof. unfold memoized. intros ->. reflexivity. Qed.

(** ** Every traversal is a sequence of steps *)

Section StepsOfBody.

Variable rec :
  option SelectionSetNode -> option ValueType -> option Entity -> value ->
  M State Result.

Hypothesis rec_steps : forall sel ty ent data st r st',
  rec sel ty ent data st = Some (r, st') -> steps st st'.

Lemma traverseEntityWith_steps entityID ty sel st r st' :
  traverseEntityWith rec entityID ty sel st = Some (r, st') -> steps st st'.
Proof.
  unfold traverseEntityWith.
  destruct (get _ _ _) as [entity|]; [|intros [= <- <-]; apply steps_missing].
  destruct sel as [ss|].
  - intros Hr. eapply steps_trans; [apply steps_check | eauto].
  - destruct (memoized _ _) as [m|].
    + intros [= <- <-]. apply steps_refl.
    + intros Hr. eapply steps_trans; [apply steps_check | eauto].
Qed.

Lemma visitField_steps result typeField data fieldName sf v st u st' :
  visitField rec result typeField data fieldName sf v st = Some (u, st') ->
  steps st st'.
Proof.
  unfold visitField. rewrite bind_modify.
  intros (r & st1 & Hr & Ha)%bind_Some. injection Ha as <- <-.
  eapply steps_trans; [apply steps_check|].
  eapply steps_trans; [eauto | apply steps_assign].
Qed.

Lemma fieldStep_steps result ty data fieldName sf st u st' :
  fieldStep rec result ty data fieldName sf st = Some (u, st') ->
  steps st st'.
Proof.
  unfold fieldStep. rewrite bind_modify.
  intros ([] & st1 & Hm & Hp)%bind_Some. injection Hp as <- <-.
  apply steps_scope with (seg := PField fieldName).
  destruct (resolveField _ _ _) as [v|].
  - eapply visitField_steps; eauto.
  - injection Hm as <-. apply steps_missing.
Qed.

Lemma forEachField_steps result ty data fields st u st' :
  forEachField rec result ty data fields st = Some (u, st') -> steps st st'.
Proof.
  revert st. induction fields as [|[fieldName sf] rest IH]; intros st; simpl.
  - intros [= <- <-]. apply steps_refl.
  - intros ([] & st1 & Hf & Hr)%bind_Some.
    eapply steps_trans; [eapply fieldStep_steps; eauto | eauto].
Qed.

Lemma itemStep_steps sel ty i item st r st' :
  itemStep rec sel ty i item st = Some (r, st') -> steps st st'.
Proof.
  unfold itemStep. rewrite bind_modify.
  intros (r1 & st1 & Hr & Hp)%bind_Some. injection Hp as <- <-.
  eapply steps_scope; eauto.
Qed.

Lemma forEachItem_steps sel ty items i st rs st' :
  forEachItem rec sel ty i items st = Some (rs, st') -> steps st st'.
Proof.
  revert i st rs. induction items as [|item rest IH]; intros i st rs; simpl.
  - intros [= <- <-]. apply steps_refl.
  - intros (r & st1 & Hi & (rs' & st2 & Hr & Hret)%bind_Some)%bind_Some.
    injection Hret as <- <-.
    eapply steps_trans; [eapply itemStep_steps; eauto | eauto].
Qed.

Lemma newResult_steps sel ent st l st' :
  newResult sel ent st = Some (l, st') -> steps st st'.
Proof.
  unfold newResult. simpl.
  destruct ent as [e|], sel as [ss|]; intros [= <- <-];
    try apply steps_alloc.
  eapply steps_trans; [apply steps_alloc | apply steps_memo].
Qed.

Lemma validate_steps ty data st :
  steps st (validate ty data st).2.
Proof.
  unfold validate. destruct ty as [t|]; [|apply steps_refl].
  destruct (isValid t data); [apply steps_refl | apply steps_invalid].
Qed.

Lemma traverseShape_steps sel ty ent data st r st' :
  traverseShape rec sel ty ent data st = Some (r, st') -> steps st st'.
Proof.
  unfold traverseShape.
  destruct data;
    try (intros [= <- <-]; apply steps_refl).
  - intros (l & st1 & Hn & (s0 & st2 & [= <- <-] &
             ([] & st3 & Hf & [= <- <-])%bind_Some)%bind_Some)%bind_Some.
    eapply steps_trans; [eapply newResult_steps; eauto|].
    eapply forEachField_steps; eauto.
  - intros (rs & st1 & Hf & [= <- <-])%bind_Some.
    eapply forEachItem_steps; eauto.
Qed.

Lemma traverseValueWith_steps sel ty ent data st r st' :
  traverseValueWith rec sel ty ent data st = Some (r, st') -> steps st st'.
Proof.
  assert (Hdata : traverseData rec sel ty ent data st = Some (r, st') ->
                  steps st st').
  { unfold traverseData.
    pose proof (validate_steps ty data st) as Hv.
    destruct (validate ty data st) as [ty' st1]. simpl in Hv.
    intros Hs. eapply steps_trans; [exact Hv|].
    eapply traverseShape_steps; eauto. }
  destruct data; simpl; try exact Hdata.
  apply traverseEntityWith_steps.
Qed.

End StepsOfBody.

Lemma traverseValue_steps fuel sel ty ent data st r st' :
  traverseValue fuel sel ty ent data st = Some (r, st') -> steps st st'.
Proof.
  revert sel ty ent data st r st'.
  induction fuel as [|fuel IH]; intros sel ty ent data st r st'; simpl.
  - discriminate.
  - apply traverseValueWith_steps. exact IH.
Qed.

Lemma traverseEntity_steps fuel entityID ty sel st r st' :
  traverseEntity fuel entityID ty sel st = Some (r, st') -> steps st st'.
Proof.
  apply traverseEntityWith_steps. apply traverseValue_steps.
Qed.

(** ** What the steps leave unchanged *)

Lemma checks_frame (ctx : ReadContext) e i :
  let ctx' := checkInvalidated (checkExpiresAt ctx e) i in
  ctx_cache ctx' = ctx_cache ctx /\ ctx_optimistic ctx' = ctx_optimistic ctx /\
  ctx_selector ctx' = ctx_selector ctx /\ ctx_path ctx' = ctx_path ctx /\
  ctx_missingFields ctx' = ctx_missingFields ctx /\
  ctx_invalidFields ctx' = ctx_invalidFields ctx /\
  ctx_fullEntityResults ctx' = ctx_fullEntityResults ctx.
Proof.
  unfold checkInvalidated, checkExpiresAt.
  destruct (truthy i), (_ && _); simpl; auto 10.
Qed.

Lemma check_frame v st :
  ctx_cache (st_ctx (check v st)) = ctx_cache (st_ctx st) /\
  ctx_optimistic (st_ctx (check v st)) = ctx_optimistic (st_ctx st) /\
  ctx_fullEntityResults (st_ctx (check v st))
    = ctx_fullEntityResults (st_ctx st) /\
  ctx_path (st_ctx (check v st)) = ctx_path (st_ctx st) /\
  ctx_missingFields (st_ctx (check v st)) = ctx_missingFields (st_ctx st).
Proof.
  pose proof (checks_frame (st_ctx st) (visitExpiresAt v)
                (visitInvalidated v)) as Hc.
  simpl in *. tauto.
Qed.

Lemma steps_cache st st' :
  steps st st' ->
  ctx_cache (st_ctx st') = ctx_cache (st_ctx st) /\
  ctx_optimistic (st_ctx st') = ctx_optimistic (st_ctx st) /\
  ctx_selector (st_ctx st') = ctx_selector (st_ctx st).
Proof.
  induction 1; simpl; auto.
  - intuition congruence.
  - pose proof (checks_frame (st_ctx st) (visitExpiresAt v)
                  (visitInvalidated v)) as Hc. simpl in Hc. tauto.
Qed.

Lemma steps_path st st' :
  steps st st' -> ctx_path (st_ctx st') = ctx_path (st_ctx st).
Proof.
  induction 1; simpl; auto.
  - congruence.
  - pose proof (checks_frame (st_ctx st) (visitExpiresAt v)
                  (visitInvalidated v)) as Hc. simpl in Hc. tauto.
  - rewrite IHsteps. simpl. apply removelast_last.
Qed.

(** ** The roll-up of expiry and invalidation *)

Lemma check_rollup v st :
  ctx_expiresAt (st_ctx (check v st)) =
    stepExpiresAt (ctx_expiresAt (st_ctx st)) (visitExpiresAt v) /\
  ctx_invalidated (st_ctx (check v st)) =
    ctx_invalidated (st_ctx st) || truthy (visitInvalidated v).
Proof.
  unfold check, checkInvalidated, checkExpiresAt, stepExpiresAt. simpl.
  destruct (truthy _), (_ && _); simpl; rewrite ?orb_true_r, ?orb_false_r;
    auto.
Qed.

Lemma steps_rollup st st' :
  steps st st' ->
  exists vs,
    st_visits st' = st_visits st ++ vs /\
    ctx_expiresAt (st_ctx st') =
      foldl stepExpiresAt (ctx_expiresAt (st_ctx st)) (visitExpiresAt <$> vs) /\
    ctx_invalidated (st_ctx st') =
      ctx_invalidated (st_ctx st) || anyInvalidated vs.
Proof.
  induction 1;
    try (exists []; simpl; rewrite app_nil_r, orb_false_r; by auto).
  - destruct IHsteps1 as (vs1 & V1 & E1 & I1).
    destruct IHsteps2 as (vs2 & V2 & E2 & I2).
    exists (vs1 ++ vs2). rewrite V2, V1, E2, E1, I2, I1.
    rewrite fmap_app, foldl_app. unfold anyInvalidated.
    rewrite existsb_app, app_assoc, orb_assoc. auto.
  - exists [v]. destruct (check_rollup v st) as [E I]. rewrite E, I.
    simpl. rewrite orb_false_r. auto.
  - destruct IHsteps as (vs & V & E & I). exists vs. simpl in *. auto.
Qed.

Lemma foldr_min_swap c t ts :
  foldr Z.min (Z.min c t) ts = Z.min t (foldr Z.min c ts).
Proof. induction ts as [|x ts IH]; simpl; lia. Qed.

Lemma foldr_min_ne c ts :
  c <> -1 -> Forall (fun t => t <> -1) ts -> foldr Z.min c ts <> -1.
Proof. induction 2; simpl; lia. Qed.

Lemma rollup_from c l :
  c <> -1 ->
  foldl stepExpiresAt (Some c) (Some <$> l) =
    Some (foldr Z.min c (filter (fun t => t ≠ -1) l)).
Proof.
  revert c. induction l as [|t l IH]; intros c Hc; simpl; [reflexivity|].
  unfold stepExpiresAt at 2. simpl.
  destruct (decide (t = -1)) as [->|Ht].
  - rewrite filter_cons_False by (intros ?; done). simpl. apply IH, Hc.
  - rewrite filter_cons_True by done. simpl.
    replace (negb (t =? -1)) with true by (symmetry; apply negb_true_iff; lia).
    replace (c =? -1) with false by lia. simpl.
    destruct (t <? c) eqn:Hlt.
    + rewrite IH by done. f_equal.
      rewrite <- foldr_min_swap. f_equal. lia.
    + rewrite IH by done. f_equal.
      rewrite <- foldr_min_swap. f_equal. lia.
Qed.

Lemma rollup_minExpiry l :
  foldl stepExpiresAt (Some (-1)) (Some <$> l) = Some (minExpiry l).
Proof.
  unfold minExpiry. induction l as [|t l IH]; simpl; [reflexivity|].
  unfold stepExpiresAt at 2. simpl.
  destruct (decide (t = -1)) as [->|Ht].
  - rewrite filter_cons_False by (intros ?; done). simpl. exact IH.
  - rewrite filter_cons_True by done.
    replace (negb (t =? -1)) with true by (symmetry; apply negb_true_iff; lia).
    simpl. apply rollup_from, Ht.
Qed.

Lemma stamps_defined vs :
  Forall (fun v => is_Some (visitExpiresAt v)) vs ->
  visitExpiresAt <$> vs = Some <$> stamps vs.
Proof.
  unfold stamps. induction 1 as [|v vs [t Ht] _ IH]; [reflexivity|].
  csimpl. rewrite Ht. csimpl. f_equal. exact IH.
Qed.

(** ** The top-level read *)

Lemma executeRead_found now fuel cache type optimistic options entity out :
  resolveEntity cache type (ro_id options) optimistic = Some entity ->
  executeRead now fuel cache type optimistic options = Some out ->
  exists data st,
    traverseEntity fuel (e_id entity) (Some type)
      (getSelectionSet (ro_select options) type)
      (initialState cache optimistic (ro_select options)) = Some (data, st) /\
    out_result out =
      mkReadResult (Some data) (Some (e_id entity))
        (ctx_expiresAt (st_ctx st)) (nonEmpty (ctx_invalidFields (st_ctx st)))
        (ctx_invalidated (st_ctx st))
        (nonEmpty (ctx_missingFields (st_ctx st))) (ro_select options)
        (ctx_invalidated (st_ctx st)
         || (strictNe (ctx_expiresAt (st_ctx st)) (-1)
             && jsLe (ctx_expiresAt (st_ctx st)) (Some now))) /\
    out_cache out = ctx_cache (st_ctx st) /\
    out_heap out = st_heap st /\
    out_visits out = st_visits st.
Proof.
  unfold executeRead, initialState. intros ->.
  destruct (traverseEntity _ _ _ _ _) as [[data st]|]; [|discriminate].
  intros [= <-]. exists data, st. simpl. auto.
Qed.

Lemma executeRead_not_found now fuel cache type optimistic options :
  resolveEntity cache type (ro_id options) optimistic = None ->
  executeRead now fuel cache type optimistic options =
    Some (mkOutcome
            (mkReadResult None None (Some (-1)) None false None
               (ro_select options) true)
            cache [] []).
Proof. unfold executeRead. intros ->. reflexivity. Qed.

(** The root cannot be resolved exactly when the type and id identify no
    key, or when no entity is stored under the key. *)
Lemma resolveEntity_None cache type id optimistic :
  resolveEntity cache type id optimistic = None <->
  (identify (mkIdentify type id) = None \/
   exists entityID, identify (mkIdentify type id) = Some entityID /\
                    get cache entityID optimistic = None).
Proof.
  unfold resolveEntity. destruct (identify _) as [k|].
  - split; [intros Hg; right; eauto|].
    intros [?|(k' & [= <-] & Hg)]; [discriminate | exact Hg].
  - split; auto.
Qed.

(** The first visit of a read is the one of the root entity, unless the
    read has no selection set and the root's id is a name that the memo
    inherits. *)
Lemma executeRead_visits_root now fuel cache type optimistic options entity
    out :
  resolveEntity cache type (ro_id options) optimistic = Some entity ->
  get cache (e_id entity) optimistic = Some entity ->
  getSelectionSet (ro_select options) type <> None \/
    isInherited (e_id entity) = false ->
  executeRead now fuel cache type optimistic options = Some out ->
  exists vs,
    out_visits out =
      EntityVisit (e_id entity) (e_expiresAt entity) (e_invalidated entity)
        :: vs.
Proof.
  intros Hroot Hget Hsel Hread.
  destruct (executeRead_found _ _ _ _ _ _ Hroot Hread)
    as (data & st & Htr & _ & _ & _ & ->).
  unfold traverseEntity, traverseEntityWith, initialState in Htr.
  simpl in Htr. rewrite Hget in Htr.
  assert (Hvs : exists vs,
            st_visits st =
              [EntityVisit (e_id entity) (e_expiresAt entity)
                 (e_invalidated entity)] ++ vs).
  { destruct (getSelectionSet _ _) as [ss|].
    - apply traverseValue_steps, steps_rollup in Htr.
      destruct Htr as (vs & Hvs & _). exists vs. exact Hvs.
    - destruct Hsel as [Hsel|Hsel]; [contradiction|].
      assert (Hmiss : memoized ∅ (e_id entity) = None).
      { apply memoized_None. split; [apply lookup_empty | exact Hsel]. }
      rewrite Hmiss in Htr.
      apply traverseValue_steps, steps_rollup in Htr.
      destruct Htr as (vs & Hvs & _). exists vs. exact Hvs. }
  exact Hvs.
Qed.

(** C2: when the root entity is found, the result is stale exactly when its
    rolled-up [invalidated] flag is set, or its rolled-up [expiresAt] is a
    timestamp other than "no expiry" (-1) that is not after the current
    time. *)
Theorem C2_stale_iff now fuel cache type optimistic options entity out :
  resolveEntity cache type (ro_id options) optimistic = Some entity ->
  executeRead now fuel cache type optimistic options = Some out ->
  r_stale (out_result out) = true <->
  (r_invalidated (out_result out) = true \/
   exists t, r_expiresAt (out_result out) = Some t /\ t <> -1 /\ t <= now).
Proof.
  intros Hroot Hread.
  destruct (executeRead_found _ _ _ _ _ _ Hroot Hread)
    as (data & st & _ & -> & _). simpl.
  rewrite orb_true_iff, andb_true_iff.
  destruct (ctx_expiresAt (st_ctx st)) as [t|]; simpl.
  - rewrite negb_true_iff, Z.eqb_neq, Z.leb_le.
    split.
    + intros [?|[? ?]]; [left; assumption | right; eauto].
    + intros [?|(t' & [= <-] & ? & ?)]; auto.
  - split.
    + intros [?|[_ ?]]; [left; assumption | discriminate].
    + intros [?|(t' & ? & _)]; [left; assumption | discriminate].
Qed.

(** C4: when the root entity cannot be resolved, the read raises no error
    and returns the empty result: stale, without data and entityID, not
    invalidated, never expiring, without missing or invalid fields. *)
Theorem C4_unresolved_root now fuel cache type optimistic options :
  resolveEntity cache type (ro_id options) optimistic = None ->
  exists out,
    executeRead now fuel cache type optimistic options = Some out /\
    out_result out =
      mkReadResult None None (Some (-1)) None false None (ro_select options)
        true.
Proof.
  intros Hroot. eexists. split.
  - apply executeRead_not_found, Hroot.
  - reflexivity.
Qed.

(** C9: a read leaves the cache as it found it: both stores, and so every
    entity with its value and metadata, are the same after the read. *)
Theorem C9_read_preserves_cache now fuel cache type optimistic options out :
  executeRead now fuel cache type optimistic options = Some out ->
  out_cache out = cache.
Proof.
  intros Hread.
  destruct (resolveEntity cache type (ro_id options) optimistic)
    as [entity|] eqn:Hroot.
  - destruct (executeRead_found _ _ _ _ _ _ Hroot Hread)
      as (data & st & Htr & _ & -> & _).
    apply traverseEntity_steps, steps_cache in Htr.
    destruct Htr as [-> _]. reflexivity.
  - rewrite (executeRead_not_found _ _ _ _ _ _ Hroot) in Hread.
    injection Hread as <-. reflexivity.
Qed.

(** ** Single steps of the traversal *)

Lemma traverseValue_dangling fuel sel ty ent ref st :
  get (ctx_cache (st_ctx st)) ref (ctx_optimistic (st_ctx st)) = None ->
  traverseValue (S fuel) sel ty ent (VReference ref) st =
    Some (RData VUndefined, onCtx addMissingField st).
Proof. intros Hget. simpl. unfold traverseEntityWith. rewrite Hget. done. Qed.



(** C7: the value of a selected field is the one its computed [read]
    function returns for the object at hand and the read context, whatever
    is stored under the field's name, and the stored value when no [read]
    function is declared and the object has the field.  The turn of the
    loop for the field completes exactly when the traversal of that value -
    with the field's selection set and the type of the field's
    configuration, after the checks of the field - returns, and then the
    result object holds the result of that traversal under the alias.  The
    context's [toReference] answers a Reference to the key that [identify]
    finds, and [undefined] when it finds none. *)
Theorem C7_field_value fuel result type data fieldName sf st st' v :
  fieldValueSpec type data fieldName v ->
  (fieldStep (traverseValue fuel) result type data fieldName sf st
     = Some (tt, st') <->
   exists r st1,
     traverseValue fuel (selectionSet sf)
       (match maybeGetfieldType type fieldName with
        | Some fc => fc_type fc
        | None => None
        end) None v
       (check (FieldVisit (ctx_path (st_ctx st) ++ [PField fieldName])
                 (fieldExpiresAt data fieldName)
                 (fieldInvalidated data fieldName))
          (onCtx (pushPath (PField fieldName)) st)) = Some (r, st1) /\
     st_heap st' =
       alter (setProp (default fieldName (alias sf)) r) result (st_heap st1) /\
     st_ctx st' = popPath (st_ctx st1) /\
     st_visits st' = st_visits st1) /\
  (forall o k, identify o = Some k -> k <> "" ->
               toReference fieldReadCtx o = VReference k) /\
  (forall o, identify o = None -> toReference fieldReadCtx o = VUndefined).
Proof.
  intros Hv. split; [|split].
  - assert (Hres : resolveField (maybeGetfieldType type fieldName) data
                     fieldName = Some v).
    { unfold resolveField.
      destruct Hv as [fc read Hfc Hread | Hnone Hown].
      - rewrite Hfc. destruct fc as [fty fread]. simpl in Hread.
        subst fread. reflexivity.
      - rewrite Hown.
        destruct (maybeGetfieldType type fieldName) as [fc|] eqn:Hfc;
          [|reflexivity].
        specialize (Hnone fc eq_refl). destruct fc as [fty fread].
        simpl in Hnone. subst fread. reflexivity. }
    unfold fieldStep. rewrite bind_modify, Hres.
    unfold visitField, fieldType. split.
    + intros ([] & st2 & Hvis & [= <-])%bind_Some.
      rewrite bind_modify in Hvis.
      apply bind_Some in Hvis. destruct Hvis as (r & st1 & Hrec & [= <-]).
      exists r, st1. split; [exact Hrec|]. simpl. auto.
    + intros (r & st1 & Hrec & Hheap & Hctx & Hvisits).
      apply bind_Some. eexists tt, _. split.
      * rewrite bind_modify. apply bind_Some. exists r, st1.
        split; [exact Hrec | reflexivity].
      * unfold modify. f_equal. f_equal. destruct st' as [c h l].
        simpl in *. subst. reflexivity.
  - intros o k Hk Hne. simpl. rewrite Hk.
    destruct (String.eqb_spec k ""); [contradiction | reflexivity].
  - intros o Hk. simpl. rewrite Hk. reflexivity.
Qed.

Lemma validate_frame ty data st :
  let st' := (validate ty data st).2 in
  ctx_cache (st_ctx st') = ctx_cache (st_ctx st) /\
  ctx_optimistic (st_ctx st') = ctx_optimistic (st_ctx st) /\
  ctx_path (st_ctx st') = ctx_path (st_ctx st) /\
  ctx_missingFields (st_ctx st') = ctx_missingFields (st_ctx st) /\
  ctx_fullEntityResults (st_ctx st') = ctx_fullEntityResults (st_ctx st) /\
  st_heap st' = st_heap st.
Proof.
  unfold validate. destruct ty as [t|]; [|simpl; auto 10].
  destruct (isValid t data); simpl; auto 10.
Qed.

Lemma traverseValue_leaf fuel sel ty ent data st :
  isLeaf data = true ->
  traverseValue (S fuel) sel ty ent data st =
    Some (RData data, (validate ty data st).2).
Proof.
  intros Hleaf. destruct data; try discriminate Hleaf; simpl;
    unfold traverseData; destruct (validate _ _ _); reflexivity.
Qed.

Lemma traverseValue_array fuel sel ty ent items st :
  traverseValue (S fuel) sel ty ent (VArray items) st =
    (let* rs := forEachItem (traverseValue fuel) sel
                  (elementType (validate ty (VArray items) st).1) 0%nat items in
     ret (RArray rs)) (validate ty (VArray items) st).2.
Proof. simpl. unfold traverseData. destruct (validate _ _ _). reflexivity. Qed.

Lemma forEachItem_eachItem fuel sel ty p items i st rs st' :
  ctx_path (st_ctx st) = p ->
  forEachItem (traverseValue fuel) sel ty i items st = Some (rs, st') <->
  eachItem fuel sel ty p i items rs st st'.
Proof.
  intros Hp. split.
  - revert i st rs Hp.
    induction items as [|item items IH]; intros i st rs Hp; simpl.
    + intros [= <- <-]. constructor.
    + intros (r & st1 & Hi & (rs' & st2 & Hr & [= <- <-])%bind_Some)%bind_Some.
      unfold itemStep in Hi. rewrite bind_modify in Hi.
      apply bind_Some in Hi. destruct Hi as (r' & st1' & Hrec & [= <- <-]).
      assert (Hpush : onCtx (pushPath (PIndex i)) st =
                      onCtx (setPath (p ++ [PIndex i])) st).
      { unfold onCtx, pushPath. rewrite Hp. reflexivity. }
      rewrite Hpush in Hrec.
      econstructor; [exact Hp | exact Hrec |].
      apply IH; [|exact Hr].
      apply traverseValue_steps, steps_path in Hrec. simpl in *.
      rewrite Hrec. apply removelast_last.
  - induction 1 as [|i item items r rs st st1 st2 Hp' Hrec _ IH]; simpl;
      [reflexivity|].
    assert (Hpop : ctx_path (st_ctx (onCtx popPath st1)) = p).
    { apply traverseValue_steps, steps_path in Hrec. simpl in *.
      rewrite Hrec. apply removelast_last. }
    specialize (IH Hpop).
    unfold bind at 1. unfold itemStep. rewrite bind_modify.
    unfold bind at 1.
    replace (onCtx (pushPath (PIndex i)) st)
      with (onCtx (setPath (p ++ [PIndex i])) st)
      by (unfold onCtx, pushPath; rewrite Hp'; reflexivity).
    rewrite Hrec. simpl. unfold bind. rewrite IH. reflexivity.
Qed.

Lemma eachItem_length fuel sel ty p i items rs st st' :
  eachItem fuel sel ty p i items rs st st' -> length rs = length items.
Proof. induction 1; simpl; congruence. Qed.

(** C8: an array is traversed into an array of the same length.  The
    array itself is validated first (lines 139-145): a valid array goes on
    with its resolved type, an invalid one is recorded and keeps its type.
    Then the elements are traversed from left to right, each with the
    selection set of the array, each with the [ofType] of the array's type
    when that type is an array type and without type otherwise, and each
    with its index appended to the path at which the array was met. *)
Theorem C8_array fuel sel ty ent items st r st' :
  let arrayType :=
    match ty with
    | Some t => if isValid t (VArray items)
                then resolveWrappedType t (VArray items) else Some t
    | None => None
    end in
  let itemType :=
    match arrayType with
    | Some t => if isArrayType t then ofType t else None
    | None => None
    end in
  let validated :=
    match ty with
    | Some t => if isValid t (VArray items) then st
                else onCtx (fun ctx => addInvalidField ctx (VArray items)) st
    | None => st
    end in
  traverseValue (S fuel) sel ty ent (VArray items) st = Some (r, st') <->
  exists rs,
    r = RArray rs /\ length rs = length items /\
    eachItem fuel sel itemType (ctx_path (st_ctx st)) 0 items rs validated st'.
Proof.
  intros arrayType itemType validated.
  rewrite traverseValue_array.
  assert (Hty : elementType (validate ty (VArray items) st).1 = itemType).
  { unfold elementType, validate, itemType, arrayType.
    destruct ty as [t|]; [|reflexivity].
    destruct (isValid t (VArray items)); reflexivity. }
  assert (Hst : (validate ty (VArray items) st).2 = validated).
  { unfold validate, validated. destruct ty as [t|]; [|reflexivity].
    destruct (isValid t (VArray items)); reflexivity. }
  assert (Hp : ctx_path (st_ctx validated) = ctx_path (st_ctx st)).
  { unfold validated. destruct ty as [t|]; [|reflexivity].
    destruct (isValid t (VArray items)); reflexivity. }
  rewrite Hty, Hst. split.
  - intros (rs & st1 & Hf & [= <- <-])%bind_Some.
    eapply forEachItem_eachItem in Hf; [|exact Hp].
    exists rs. split; [reflexivity|]. split; [|exact Hf].
    eapply eachItem_length, Hf.
  - intros (rs & -> & _ & Hf).
    eapply forEachItem_eachItem in Hf; [|exact Hp].
    unfold bind. rewrite Hf. reflexivity.
Qed.

(** C10, as amended: the loop over the selected fields never records a
    field with a computed [read] function as missing: the field counts as
    found whatever the function returns and whatever is stored, and the
    missing fields after the field are those after the traversal of the
    returned value.  When the function returns a value that is neither a
    Reference, nor an object with metadata, nor an array - [undefined] for
    one - no missing field is recorded and the value is stored under the
    alias. *)
Theorem C10_computed_not_missing fuel result type data fieldName sf fc read st :
  maybeGetfieldType type fieldName = Some fc ->
  fc_read fc = Some read ->
  let v := read data fieldReadCtx in
  let visited :=
    check (FieldVisit (ctx_path (st_ctx st) ++ [PField fieldName])
             (fieldExpiresAt data fieldName) (fieldInvalidated data fieldName))
      (onCtx (pushPath (PField fieldName)) st) in
  (forall st',
     fieldStep (traverseValue fuel) result type data fieldName sf st =
       Some (tt, st') ->
     exists r st1,
       traverseValue fuel (selectionSet sf) (fc_type fc) None v visited =
         Some (r, st1) /\
       ctx_missingFields (st_ctx st') = ctx_missingFields (st_ctx st1)) /\
  (isLeaf v = true ->
   exists st',
     fieldStep (traverseValue (S fuel)) result type data fieldName sf st =
       Some (tt, st') /\
     ctx_missingFields (st_ctx st') = ctx_missingFields (st_ctx st) /\
     st_heap st' =
       alter (setProp (default fieldName (alias sf)) (RData v)) result
         (st_heap st)).
Proof.
  intros Hfc Hread v visited.
  assert (Hres : resolveField (maybeGetfieldType type fieldName) data
                   fieldName = Some v).
  { rewrite Hfc. destruct fc as [fty fread]. simpl in Hread. subst fread.
    reflexivity. }
  assert (Hvisited : ctx_missingFields (st_ctx visited) =
                     ctx_missingFields (st_ctx st)).
  { pose proof (checks_frame
                  (st_ctx (onCtx (pushPath (PField fieldName)) st))
                  (fieldExpiresAt data fieldName)
                  (fieldInvalidated data fieldName)) as Hc.
    simpl in Hc. unfold visited. simpl. tauto. }
  split.
  - intros st'. unfold fieldStep. rewrite bind_modify, Hres.
    intros ([] & st2 & Hvis & [= <-])%bind_Some.
    unfold visitField in Hvis. rewrite bind_modify, Hfc in Hvis.
    apply bind_Some in Hvis. destruct Hvis as (r & st1 & Hrec & [= <-]).
    exists r, st1. split; [exact Hrec | reflexivity].
  - intros Hleaf. eexists. unfold fieldStep. rewrite bind_modify, Hres.
    unfold bind at 1. unfold visitField. rewrite bind_modify, Hfc.
    unfold bind at 1. simpl fieldType.
    rewrite traverseValue_leaf by exact Hleaf.
    split; [reflexivity|].
    pose proof (validate_frame (fc_type fc) v visited)
      as (_ & _ & _ & Hm & _ & Hh).
    change (check _ (onCtx (pushPath (PField fieldName)) st)) with visited.
    split.
    + transitivity
        (ctx_missingFields (st_ctx (validate (fc_type fc) v visited).2));
        [reflexivity|].
      rewrite Hm. exact Hvisited.
    + transitivity
        (alter (setProp (default fieldName (alias sf)) (RData v)) result
           (st_heap (validate (fc_type fc) v visited).2));
        [reflexivity|].
      rewrite Hh. reflexivity.
Qed.

(** ** The entities traversed and the fields visited *)

Lemma memoized_seen memo id :
  memoized memo id = None <->
  bool_decide (id ∈ dom memo) || isInherited id = false.
Proof.
  rewrite memoized_None, orb_false_iff, bool_decide_eq_false, not_elem_of_dom.
  reflexivity.
Qed.

Lemma validate_typeOf ty data st : (validate ty data st).1 = typeOf ty data.
Proof.
  unfold validate, typeOf. destruct ty as [t|]; [|reflexivity].
  destruct (isValid t data); reflexivity.
Qed.

Lemma validate_visits ty data st :
  st_visits (validate ty data st).2 = st_visits st.
Proof.
  unfold validate. destruct ty as [t|]; [|reflexivity].
  destruct (isValid t data); reflexivity.
Qed.

Lemma within_steps cache optimistic selector st st' :
  within cache optimistic selector st -> steps st st' ->
  within cache optimistic selector st'.
Proof.
  intros (Hc & Ho & Hs) (Hc' & Ho' & Hs')%steps_cache. unfold within.
  rewrite Hc', Ho', Hs'. auto.
Qed.

Section VisitedOfBody.

Variable cache : Cache.
Variable optimistic : bool.
Variable selector : option DocumentNode.

Variable rec :
  option SelectionSetNode -> option ValueType -> option Entity -> value ->
  M State Result.

Variable vrec :
  option SelectionSetNode -> option ValueType -> option Entity -> value ->
  list PathSegment -> M (gset string) (list Visit).

Hypothesis rec_steps : forall sel ty ent data st r st',
  rec sel ty ent data st = Some (r, st') -> steps st st'.

Hypothesis rec_visited : forall sel ty ent data st r st',
  within cache optimistic selector st ->
  rec sel ty ent data st = Some (r, st') ->
  makes (vrec sel ty ent data) st st'.

Lemma traverseEntityWith_visited entityID ty sel st r st' :
  within cache optimistic selector st ->
  traverseEntityWith rec entityID ty sel st = Some (r, st') ->
  makes (visitedEntity cache optimistic vrec entityID ty sel) st st'.
Proof.
  intros Hw. pose proof Hw as (Hc & Ho & Hs).
  unfold traverseEntityWith, makes, visitedEntity. rewrite Hc, Ho.
  destruct (get cache entityID optimistic) as [entity|].
  2:{ intros [= <- <-]. exists []. rewrite app_nil_r. auto. }
  set (v := EntityVisit (e_id entity) (e_expiresAt entity)
              (e_invalidated entity)).
  assert (Hgo : rec sel ty (Some entity) (e_value entity) (check v st)
                = Some (r, st') ->
                exists vs,
                  (let* vs := vrec sel ty (Some entity) (e_value entity)
                                (ctx_path (st_ctx st)) in
                   ret (v :: vs)) (seenBy st) = Some (vs, seenBy st') /\
                  st_visits st' = st_visits st ++ vs).
  { intros Hr. apply rec_visited in Hr;
      [|eapply within_steps; [exact Hw | apply steps_check]].
    destruct Hr as (vs & Hv & Hl).
    destruct (check_frame v st) as (_ & _ & Hm & Hp & _).
    unfold seenBy in Hv at 1. rewrite Hm, Hp in Hv.
    exists (v :: vs). split.
    - unfold bind. unfold seenBy at 1. rewrite Hv. reflexivity.
    - rewrite Hl. simpl. rewrite <- app_assoc. reflexivity. }
  destruct sel as [ss|]; [exact Hgo|].
  destruct (memoized _ _) as [m|] eqn:Hmemo.
  - intros [= <- <-].
    destruct (bool_decide _ || isInherited _) eqn:Hb.
    + exists []. rewrite app_nil_r. auto.
    + apply memoized_seen in Hb. congruence.
  - destruct (bool_decide _ || isInherited _) eqn:Hb; [|exact Hgo].
    apply memoized_seen in Hmemo. unfold seenBy in Hb. congruence.
Qed.

Lemma fieldStep_visited result ty data fieldName sf st u st' :
  within cache optimistic selector st ->
  fieldStep rec result ty data fieldName sf st = Some (u, st') ->
  makes (fun p => visitedField vrec ty data p fieldName sf) st st'.
Proof.
  intros Hw. unfold fieldStep, makes, visitedField. rewrite bind_modify.
  intros ([] & st1 & Hm & [= <- <-])%bind_Some.
  destruct (resolveField _ _ _) as [v|].
  - unfold visitField in Hm. rewrite bind_modify in Hm.
    apply bind_Some in Hm. destruct Hm as (r & st2 & Hrec & [= <-]).
    set (st_a := onCtx (pushPath (PField fieldName)) st) in *.
    set (fv := FieldVisit (ctx_path (st_ctx st_a))
                 (fieldExpiresAt data fieldName)
                 (fieldInvalidated data fieldName)) in *.
    apply rec_visited in Hrec.
    2:{ eapply within_steps; [|apply steps_check].
        destruct Hw as (Hc & Ho & Hs). unfold within. simpl. auto. }
    destruct Hrec as (vs & Hv & Hl).
    destruct (check_frame fv st_a) as (_ & _ & Hmemo & Hp & _).
    unfold seenBy in Hv at 1. rewrite Hmemo, Hp in Hv.
    exists (fv :: vs). split.
    + unfold bind. change (vrec (selectionSet sf)
                             (fieldType (maybeGetfieldType ty fieldName)) None
                             v (ctx_path (st_ctx st) ++ [PField fieldName])
                             (seenBy st) = Some (vs, seenBy st2)) in Hv.
      rewrite Hv. reflexivity.
    + change (st_visits st2 = st_visits st ++ fv :: vs).
      rewrite Hl. simpl. rewrite <- app_assoc. reflexivity.
  - injection Hm as <-. exists []. rewrite app_nil_r. auto.
Qed.

Lemma forEachField_visited result ty data fields st u st' :
  within cache optimistic selector st ->
  forEachField rec result ty data fields st = Some (u, st') ->
  makes (fun p => visitedFields vrec ty data p fields) st st'.
Proof.
  revert st. induction fields as [|[fieldName sf] rest IH]; intros st Hw;
    cbn [forEachField].
  - intros [= <- <-]. exists []. rewrite app_nil_r. auto.
  - intros ([] & st1 & Hstep & Hrest)%bind_Some.
    assert (Hsteps : steps st st1)
      by (eapply fieldStep_steps; [exact rec_steps | exact Hstep]).
    apply fieldStep_visited in Hstep; [|exact Hw].
    destruct Hstep as (vs & Hv & Hl).
    apply IH in Hrest; [|eapply within_steps; eassumption].
    destruct Hrest as (ws & Hv' & Hl').
    rewrite (steps_path Hsteps) in Hv'.
    exists (vs ++ ws). split.
    + cbn [visitedFields]. unfold bind at 1. rewrite Hv.
      unfold bind. rewrite Hv'. reflexivity.
    + rewrite Hl', Hl, app_assoc. reflexivity.
Qed.

Lemma forEachItem_visited sel ty items i st rs st' :
  within cache optimistic selector st ->
  forEachItem rec sel ty i items st = Some (rs, st') ->
  makes (fun p => visitedItems vrec sel ty p i items) st st'.
Proof.
  revert i st rs. induction items as [|item rest IH]; intros i st rs Hw;
    cbn [forEachItem].
  - intros [= <- <-]. exists []. rewrite app_nil_r. auto.
  - intros (r & st1 & Hi & (rs' & st2 & Hrest & [= <- <-])%bind_Some)%bind_Some.
    assert (Hsteps : steps st st1)
      by (eapply itemStep_steps; [exact rec_steps | exact Hi]).
    unfold itemStep in Hi. rewrite bind_modify in Hi.
    apply bind_Some in Hi. destruct Hi as (r' & st1' & Hrec & [= <- <-]).
    apply rec_visited in Hrec.
    2:{ destruct Hw as (Hc & Ho & Hs). unfold within. simpl. auto. }
    destruct Hrec as (vs & Hv & Hl).
    apply IH in Hrest; [|eapply within_steps; eassumption].
    destruct Hrest as (ws & Hv' & Hl').
    rewrite (steps_path Hsteps) in Hv'.
    exists (vs ++ ws). split.
    + cbn [visitedItems]. unfold bind at 1.
      change (vrec sel ty None item (ctx_path (st_ctx st) ++ [PIndex i])
                (seenBy st) = Some (vs, seenBy st1')) in Hv.
      rewrite Hv. unfold bind. 
      change (seenBy (onCtx popPath st1')) with (seenBy st1') in Hv'.
      rewrite Hv'. reflexivity.
    + rewrite Hl'. change (st_visits (onCtx popPath st1'))
        with (st_visits st1'). rewrite Hl, app_assoc. reflexivity.
Qed.

Lemma traverseValueWith_visited sel ty ent data st r st' :
  within cache optimistic selector st ->
  traverseValueWith rec sel ty ent data st = Some (r, st') ->
  makes (visitedWith cache optimistic selector vrec sel ty ent data) st st'.
Proof.
  intros Hw.
  assert (Hdata : isReference data = false ->
            traverseShape rec sel (typeOf ty data) ent data
              (validate ty data st).2 = Some (r, st') ->
            makes (visitedWith cache optimistic selector vrec sel ty ent data)
              st st').
  { intros Href.
    pose proof (validate_frame ty data st) as (_ & _ & Hp & _ & Hm & _).
    pose proof (validate_visits ty data st) as Hl.
    assert (Hw0 : within cache optimistic selector (validate ty data st).2)
      by (eapply within_steps; [exact Hw | apply validate_steps]).
    set (st0 := (validate ty data st).2) in *.
    assert (Hseen : seenBy st0 = seenBy st)
      by (unfold seenBy; rewrite Hm; reflexivity).
    unfold traverseShape, makes.
    destruct data; try discriminate Href;
      try (intros [= <- <-]; exists []; rewrite app_nil_r, Hseen, Hl;
           split; reflexivity).
    - intros (l & st1 & Hn & (s0 & st2 & [= <- <-] &
               (u & st3 & Hf & [= <- <-])%bind_Some)%bind_Some)%bind_Some.
      assert (Hst1 : within cache optimistic selector st1 /\
                     ctx_path (st_ctx st1) = ctx_path (st_ctx st) /\
                     st_visits st1 = st_visits st /\
                     seenBy st1 =
                       match ent, sel with
                       | Some e, None => {[ e_id e ]} ∪ seenBy st
                       | _, _ => seenBy st
                       end).
      { unfold newResult in Hn. simpl in Hn. rewrite <- Hseen, <- Hp, <- Hl.
        destruct Hw0 as (Hc0 & Ho0 & Hs0).
        destruct ent as [e|], sel as [ss|]; injection Hn as <- <-;
          unfold within, seenBy; simpl; auto.
        rewrite dom_insert_L. auto. }
      destruct Hst1 as (Hw1 & Hp1 & Hl1 & Hseen1).
      apply forEachField_visited in Hf; [|exact Hw1].
      destruct Hf as (vs & Hv & Hl').
      destruct Hw1 as (_ & _ & Hs1). rewrite Hs1, Hp1, Hseen1 in Hv.
      exists vs. split; [|rewrite Hl', Hl1; reflexivity].
      cbn [visitedWith]. rewrite bind_modify. exact Hv.
    - intros (rs & st1 & Hf & [= <- <-])%bind_Some.
      apply forEachItem_visited in Hf; [|exact Hw0].
      destruct Hf as (vs & Hv & Hl').
      rewrite Hp, Hseen in Hv.
      exists vs. split; [exact Hv | rewrite Hl', Hl; reflexivity]. }
  assert (Hval : traverseData rec sel ty ent data st =
                 traverseShape rec sel (typeOf ty data) ent data
                   (validate ty data st).2).
  { unfold traverseData. rewrite <- (validate_typeOf ty data st).
    destruct (validate ty data st). reflexivity. }
  destruct data; try (simpl; rewrite Hval; apply Hdata; reflexivity).
  apply traverseEntityWith_visited, Hw.
Qed.

End VisitedOfBody.

Lemma traverseValue_visited cache optimistic selector fuel :
  forall sel ty ent data st r st',
    within cache optimistic selector st ->
    traverseValue fuel sel ty ent data st = Some (r, st') ->
    makes (visited cache optimistic selector fuel sel ty ent data) st st'.
Proof.
  induction fuel as [|fuel IH]; intros sel ty ent data st r st' Hw;
    [discriminate|].
  cbn [traverseValue visited].
  apply traverseValueWith_visited; [|exact IH|exact Hw].
  intros. eapply traverseValue_steps. eassumption.
Qed.

(** What a read rolls up is what the entities traversed and the fields
    visited hold. *)
Lemma executeRead_visited now fuel cache type optimistic options out :
  executeRead now fuel cache type optimistic options = Some out ->
  exists vs,
    readVisits fuel cache type optimistic options = Some vs /\
    out_visits out = vs /\
    r_expiresAt (out_result out) =
      foldl stepExpiresAt (Some (-1)) (visitExpiresAt <$> vs) /\
    r_invalidated (out_result out) = anyInvalidated vs.
Proof.
  intros Hread. unfold readVisits.
  destruct (resolveEntity cache type (ro_id options) optimistic)
    as [entity|] eqn:Hroot.
  - destruct (executeRead_found _ _ _ _ _ _ Hroot Hread)
      as (data & st & Htr & -> & _ & _ & ->). simpl.
    pose proof (traverseEntity_steps _ _ _ _ _ Htr) as Hsteps.
    apply steps_rollup in Hsteps. destruct Hsteps as (vs & Hl & He & Hi).
    change (traverseValue (S fuel) (getSelectionSet (ro_select options) type)
              (Some type) None (VReference (e_id entity))
              (initialState cache optimistic (ro_select options))
            = Some (data, st)) in Htr.
    apply traverseValue_visited
      with (cache := cache) (optimistic := optimistic)
           (selector := ro_select options) in Htr;
      [|unfold within; simpl; auto].
    destruct Htr as (vs' & Hv & Hl').
    simpl in Hl, Hl'. subst vs'.
    exists (st_visits st). 
    unfold seenBy in Hv at 1. simpl in Hv. rewrite dom_empty_L in Hv.
    split; [|split; [reflexivity|]].
    + cbn [visited]. cbn [visited] in Hv. rewrite Hv. reflexivity.
    + rewrite He, Hi, Hl. simpl. auto.
  - rewrite (executeRead_not_found _ _ _ _ _ _ Hroot) in Hread.
    injection Hread as <-. exists []. simpl. auto.
Qed.


(** ** The memo of entities selected without selection set *)

(** An entity met again without selection set is answered from the memo:
    the same result object, no traversal, no budget spent. *)
Lemma traverseEntity_memo_hit fuel entityID ty st entity l :
  get (ctx_cache (st_ctx st)) entityID (ctx_optimistic (st_ctx st))
    = Some entity ->
  ctx_fullEntityResults (st_ctx st) !! e_id entity = Some l ->
  traverseEntity fuel entityID ty None st = Some (RObject l, st).
Proof.
  intros Hget Hmemo. unfold traverseEntity, traverseEntityWith.
  rewrite Hget, (memoized_own _ _ Hmemo). reflexivity.
Qed.

(** The result object of an entity selected without selection set is
    memoized under the entity's id before any of its fields is traversed. *)
Lemma newResult_memoizes entity st :
  exists st',
    newResult None (Some entity) st = Some (length (st_heap st), st') /\
    ctx_fullEntityResults (st_ctx st') !! e_id entity
      = Some (length (st_heap st)) /\
    st_heap st' = st_heap st ++ [[]].
Proof.
  eexists. split; [reflexivity|]. simpl. split; [|reflexivity].
  apply lookup_insert_eq.
Qed.

(** The memo holds result objects only: an entity whose value is an array
    that refers back to the entity is traversed again and again. *)
Lemma array_cycle_never_returns fuel :
  forall sel ty ent st entity entityID,
    get (ctx_cache (st_ctx st)) entityID (ctx_optimistic (st_ctx st))
      = Some entity ->
    e_value entity = VArray [VReference entityID] ->
    memoized (ctx_fullEntityResults (st_ctx st)) (e_id entity) = None ->
    traverseValue fuel sel ty ent (VReference entityID) st = None /\
    traverseValue fuel sel ty ent (VArray [VReference entityID]) st = None.
Proof.
  induction fuel as [|fuel IH]; intros sel ty ent st entity entityID
    Hget Hval Hmemo; [split; reflexivity|].
  split.
  - simpl. unfold traverseEntityWith. rewrite Hget, Hmemo, Hval.
    pose proof (checks_frame (st_ctx st) (Some (e_expiresAt entity))
                  (Some (e_invalidated entity)))
      as (Hc & Ho & _ & _ & _ & _ & Hm).
    assert (Hgoal : forall sel',
      traverseValue fuel sel' ty (Some entity) (VArray [VReference entityID])
        (check (EntityVisit (e_id entity) (e_expiresAt entity)
                  (e_invalidated entity)) st) = None).
    { intros sel'. eapply IH; [| exact Hval |]; simpl.
      - rewrite Hc, Ho. exact Hget.
      - rewrite Hm. exact Hmemo. }
    destruct sel; apply Hgoal.
  - rewrite traverseValue_array.
    pose proof (validate_frame ty (VArray [VReference entityID]) st)
      as (Hc & Ho & _ & _ & Hm & _).
    unfold bind. simpl forEachItem. unfold bind, itemStep.
    rewrite bind_modify. unfold bind.
    match goal with
    | |- context [traverseValue fuel ?s ?t ?e (VReference entityID) ?st0] =>
        assert (Hitem : traverseValue fuel s t e (VReference entityID) st0
                        = None)
    end.
    { eapply IH; [| exact Hval |]; simpl.
      - rewrite Hc, Ho. exact Hget.
      - rewrite Hm. exact Hmemo. }
    rewrite Hitem. reflexivity.
Qed.

Lemma executeRead_array_cycle now fuel cache type optimistic options entity :
  resolveEntity cache type (ro_id options) optimistic = Some entity ->
  get cache (e_id entity) optimistic = Some entity ->
  e_value entity = VArray [VReference (e_id entity)] ->
  isInherited (e_id entity) = false ->
  executeRead now fuel cache type optimistic options = None.
Proof.
  intros Hroot Hget Hval Hown. unfold executeRead. rewrite Hroot.
  unfold traverseEntity, traverseEntityWith. simpl.
  assert (Hmiss : memoized ∅ (e_id entity) = None).
  { apply memoized_None. split; [apply lookup_empty | exact Hown]. }
  rewrite Hget, Hmiss, Hval.
  assert (Hloop : forall sel st,
            ctx_cache (st_ctx st) = cache ->
            ctx_optimistic (st_ctx st) = optimistic ->
            ctx_fullEntityResults (st_ctx st) = ∅ ->
            traverseValue fuel sel (Some type) (Some entity)
              (VArray [VReference (e_id entity)]) st = None).
  { intros sel st Hc Ho Hm. eapply array_cycle_never_returns; [| exact Hval |].
    - rewrite Hc, Ho. exact Hget.
    - rewrite Hm. exact Hmiss. }
  set (v := EntityVisit _ _ _). set (st0 := mkState _ _ _).
  destruct (check_frame v st0) as (Hc & Ho & Hm & _).
  destruct (getSelectionSet _ _);
    (rewrite Hloop; [reflexivity | rewrite Hc | rewrite Ho | rewrite Hm]);
    reflexivity.
Qed.

(** ** A larger budget changes nothing *)

Section Monotone.

Variables rec1 rec2 :
  option SelectionSetNode -> option ValueType -> option Entity -> value ->
  M State Result.

Hypothesis rec_le : forall sel ty ent data st r,
  rec1 sel ty ent data st = Some r -> rec2 sel ty ent data st = Some r.

Lemma traverseEntityWith_le entityID ty sel st r :
  traverseEntityWith rec1 entityID ty sel st = Some r ->
  traverseEntityWith rec2 entityID ty sel st = Some r.
Proof.
  unfold traverseEntityWith. destruct (get _ _ _) as [entity|]; [|done].
  destruct sel; [apply rec_le|].
  destruct (memoized _ _); [done | apply rec_le].
Qed.

Lemma fieldStep_le result ty data fieldName sf st r :
  fieldStep rec1 result ty data fieldName sf st = Some r ->
  fieldStep rec2 result ty data fieldName sf st = Some r.
Proof.
  destruct r as [u st']. unfold fieldStep. rewrite !bind_modify.
  intros (u1 & st1 & Hm & Hp)%bind_Some.
  apply bind_Some. exists u1, st1. split; [|exact Hp].
  destruct (resolveField _ _ _) as [v|]; [|exact Hm].
  unfold visitField in *. rewrite bind_modify in *.
  apply bind_Some in Hm. destruct Hm as (r1 & st2 & Hrec & Ha).
  apply bind_Some. exists r1, st2. split; [apply rec_le, Hrec | exact Ha].
Qed.

Lemma forEachField_le result ty data fields st r :
  forEachField rec1 result ty data fields st = Some r ->
  forEachField rec2 result ty data fields st = Some r.
Proof.
  destruct r as [u st']. revert st.
  induction fields as [|[fieldName sf] rest IH]; intros st; simpl; [done|].
  intros (u1 & st1 & Hstep & Hrest)%bind_Some.
  apply bind_Some. exists u1, st1.
  split; [apply fieldStep_le, Hstep | apply IH, Hrest].
Qed.

Lemma itemStep_le sel ty i item st r :
  itemStep rec1 sel ty i item st = Some r ->
  itemStep rec2 sel ty i item st = Some r.
Proof.
  destruct r as [r st']. unfold itemStep. rewrite !bind_modify.
  intros (r1 & st1 & Hrec & Hp)%bind_Some.
  apply bind_Some. exists r1, st1. split; [apply rec_le, Hrec | exact Hp].
Qed.

Lemma forEachItem_le sel ty items i st r :
  forEachItem rec1 sel ty i items st = Some r ->
  forEachItem rec2 sel ty i items st = Some r.
Proof.
  destruct r as [rs st']. revert i st rs.
  induction items as [|item rest IH]; intros i st rs; simpl; [done|].
  intros (r1 & st1 & Hstep & (rs1 & st2 & Hrest & Hret)%bind_Some)%bind_Some.
  injection Hret as <- <-.
  apply bind_Some. exists r1, st1. split; [apply itemStep_le, Hstep|].
  apply bind_Some. exists rs1, st2. split; [apply IH, Hrest | done].
Qed.

Lemma traverseShape_le sel ty ent data st r :
  traverseShape rec1 sel ty ent data st = Some r ->
  traverseShape rec2 sel ty ent data st = Some r.
Proof.
  destruct r as [r st']. unfold traverseShape. destruct data; try done.
  - intros (l & st1 & Hn & (s0 & st2 & Hs &
             (u & st3 & Hf & Hret)%bind_Some)%bind_Some)%bind_Some.
    apply bind_Some. exists l, st1. split; [exact Hn|].
    apply bind_Some. exists s0, st2. split; [exact Hs|].
    apply bind_Some. exists u, st3.
    split; [apply forEachField_le, Hf | exact Hret].
  - intros (rs & st1 & Hf & Hret)%bind_Some.
    apply bind_Some. exists rs, st1.
    split; [apply forEachItem_le, Hf | exact Hret].
Qed.

Lemma traverseValueWith_le sel ty ent data st r :
  traverseValueWith rec1 sel ty ent data st = Some r ->
  traverseValueWith rec2 sel ty ent data st = Some r.
Proof.
  assert (Hdata : traverseData rec1 sel ty ent data st = Some r ->
                  traverseData rec2 sel ty ent data st = Some r).
  { unfold traverseData. destruct (validate ty data st).
    apply traverseShape_le. }
  destruct data; try exact Hdata. apply traverseEntityWith_le.
Qed.

End Monotone.

Lemma traverseValue_le fuel fuel' sel ty ent data st r :
  (fuel <= fuel')%nat ->
  traverseValue fuel sel ty ent data st = Some r ->
  traverseValue fuel' sel ty ent data st = Some r.
Proof.
  revert fuel' sel ty ent data st r.
  induction fuel as [|fuel IH]; intros fuel' sel ty ent data st r Hle;
    [discriminate|].
  destruct fuel' as [|fuel']; [lia|]. simpl.
  apply traverseValueWith_le. intros. eapply IH; [|eassumption]. lia.
Qed.

Lemma traverseValue_max_l f1 f2 sel ty ent data st r :
  traverseValue f1 sel ty ent data st = Some r ->
  traverseValue (Nat.max f1 f2) sel ty ent data st = Some r.
Proof. apply traverseValue_le. lia. Qed.

Lemma traverseValue_max_r f1 f2 sel ty ent data st r :
  traverseValue f2 sel ty ent data st = Some r ->
  traverseValue (Nat.max f1 f2) sel ty ent data st = Some r.
Proof. apply traverseValue_le. lia. Qed.

(** ** Termination on stores of objects *)

Lemma vsize_field fields ea inv fieldName v :
  assoc fieldName fields = Some v ->
  (vsize v < vsize (VObject fields ea inv))%nat.
Proof.
  simpl. induction fields as [|[k v'] fields IH]; simpl; [discriminate|].
  destruct (String.eqb fieldName k).
  - intros [= ->]. lia.
  - intros Hv. specialize (IH Hv). lia.
Qed.

(** What [data[fieldName]] finds is a metadata record, or a data field,
    which is smaller than the object. *)
Lemma vsize_stored fields ea inv fieldName :
  hasOwn (VObject fields ea inv) fieldName = true ->
  isLeaf (getField (VObject fields ea inv) fieldName) = true \/
  (vsize (getField (VObject fields ea inv) fieldName)
   < vsize (VObject fields ea inv))%nat.
Proof.
  unfold hasOwn, getField, isMetaKey.
  destruct (String.eqb fieldName "___expiresAt"); [left; reflexivity|].
  destruct (String.eqb fieldName "___invalidated"); [left; reflexivity|].
  rewrite orb_false_l. intros Hown. apply bool_decide_eq_true in Hown.
  destruct Hown as [v Hv]. rewrite Hv. right. eapply vsize_field, Hv.
Qed.

Lemma vsize_item items item :
  In item items -> (vsize item < vsize (VArray items))%nat.
Proof.
  simpl. induction items as [|v' items IH]; simpl; [contradiction|].
  intros [->|Hin]; [lia|]. specialize (IH Hin). lia.
Qed.

Lemma grows_refl st : grows st st.
Proof. unfold grows. auto. Qed.

Lemma grows_trans st1 st2 st3 : grows st1 st2 -> grows st2 st3 -> grows st1 st3.
Proof.
  unfold grows. intros (-> & -> & ?) (-> & -> & ?).
  split; [reflexivity|]. split; [reflexivity|]. set_solver.
Qed.

Lemma grows_onCtx f st :
  (forall ctx, ctx_cache (f ctx) = ctx_cache ctx /\
               ctx_optimistic (f ctx) = ctx_optimistic ctx /\
               ctx_fullEntityResults (f ctx) = ctx_fullEntityResults ctx) ->
  grows st (onCtx f st).
Proof.
  intros Hf. destruct (Hf (st_ctx st)) as (Hc & Ho & Hm).
  unfold grows. simpl. rewrite Hc, Ho, Hm. auto.
Qed.

Lemma grows_check v st : grows st (check v st).
Proof.
  destruct (check_frame v st) as (Hc & Ho & Hm & _).
  unfold grows. rewrite Hc, Ho, Hm. auto.
Qed.

Lemma steps_grows st st' : steps st st' -> grows st st'.
Proof.
  induction 1; try (unfold grows; simpl; by auto).
  - eapply grows_trans; eassumption.
  - apply grows_check.
  - unfold grows. simpl. split; [reflexivity|]. split; [reflexivity|].
    rewrite dom_insert. set_solver.
Qed.

Lemma reading_grows cache optimistic u st st' :
  reading cache optimistic u st -> grows st st' ->
  reading cache optimistic u st'.
Proof.
  intros (Hc & Ho & Hu) (Hc' & Ho' & Hm). unfold reading.
  split; [congruence|]. split; [congruence|].
  unfold unmemoized in *. etransitivity; [|exact Hu].
  apply subseteq_size. set_solver.
Qed.

Lemma get_storeIds cache optimistic entityID entity :
  get cache entityID optimistic = Some entity ->
  e_id entity ∈ storeIds cache optimistic.
Proof.
  unfold get, storeIds. intros Hget.
  apply elem_of_list_to_set, list_elem_of_fmap.
  exists (entityID, entity). split; [reflexivity|].
  apply elem_of_map_to_list. destruct optimistic; exact Hget.
Qed.

(** Memoizing an entity of the store that the memo did not hold leaves
    fewer entities to memoize. *)
Lemma unmemoized_insert cache optimistic st entityID entity l :
  get cache entityID optimistic = Some entity ->
  ctx_fullEntityResults (st_ctx st) !! e_id entity = None ->
  (unmemoized cache optimistic
     (onCtx (fun ctx =>
               setFullEntityResults
                 (<[e_id entity := l]> (ctx_fullEntityResults ctx)) ctx) st)
   < unmemoized cache optimistic st)%nat.
Proof.
  intros Hget Hmemo. unfold unmemoized. simpl.
  apply subset_size. rewrite dom_insert.
  apply get_storeIds in Hget. apply not_elem_of_dom in Hmemo.
  set_solver.
Qed.

Lemma traverseValue_object fuel sel ty ent fields ea inv st :
  traverseValue (S fuel) sel ty ent (VObject fields ea inv) st =
    (let* result := newResult sel ent in
     let* st1 := (fun st1 => Some (st1, st1)) in
     exec forEachField (traverseValue fuel) result
            (validate ty (VObject fields ea inv) st).1 (VObject fields ea inv)
            (getSelectionFields (ctx_selector (st_ctx st1)) sel
               (validate ty (VObject fields ea inv) st).1
               (VObject fields ea inv)) in
     ret (RObject result)) (validate ty (VObject fields ea inv) st).2.
Proof. simpl. unfold traverseData. destruct (validate _ _ _). reflexivity. Qed.

Section Loops.

(** A property of states that the growth of the memo preserves. *)
Variable P : State -> Prop.
Hypothesis P_grows : forall st st', P st -> grows st st' -> P st'.

Lemma forEachField_terminates result ty data fields :
  (forall fieldName sf v st,
     In (fieldName, sf) fields ->
     resolveField (maybeGetfieldType ty fieldName) data fieldName = Some v ->
     P st ->
     Terminates (selectionSet sf) (fieldType (maybeGetfieldType ty fieldName))
       None v st) ->
  forall st, P st ->
  exists fuel u st',
    forEachField (traverseValue fuel) result ty data fields st = Some (u, st').
Proof.
  induction fields as [|[fieldName sf] rest IH]; intros Hfields st HP.
  - exists O, tt, st. reflexivity.
  - assert (Hrest : forall st1, P st1 ->
              exists fuel u st',
                forEachField (traverseValue fuel) result ty data rest st1
                  = Some (u, st')).
    { apply IH. intros f' sf' v' st1 Hin. apply Hfields. right. exact Hin. }
    set (st_a := onCtx (pushPath (PField fieldName)) st).
    assert (Ha : P st_a).
    { apply (P_grows HP). apply grows_onCtx. intros ctx. simpl. auto. }
    destruct (resolveField (maybeGetfieldType ty fieldName) data fieldName)
      as [v|] eqn:Hres.
    + set (st_c := check (FieldVisit (ctx_path (st_ctx st_a))
                            (fieldExpiresAt data fieldName)
                            (fieldInvalidated data fieldName)) st_a).
      assert (Hc : P st_c) by (apply (P_grows Ha), grows_check).
      destruct (Hfields fieldName sf v st_c (or_introl eq_refl) Hres Hc)
        as (f1 & r & st_d & Hchild).
      assert (Hd : P st_d).
      { apply (P_grows Hc). eapply steps_grows, traverseValue_steps, Hchild. }
      set (st_e := onCtx popPath
                     (assign result (default fieldName (alias sf)) r st_d)).
      assert (He : P st_e).
      { apply (P_grows Hd). unfold grows. simpl. auto. }
      destruct (Hrest st_e He) as (f2 & u & st' & Hloop).
      exists (Nat.max f1 f2), u, st'.
      assert (Hstep : fieldStep (traverseValue (Nat.max f1 f2)) result ty data
                        fieldName sf st = Some (tt, st_e)).
      { unfold fieldStep. rewrite bind_modify, Hres. fold st_a.
        unfold bind at 1. unfold visitField. rewrite bind_modify.
        fold st_c. unfold bind at 1.
        rewrite (@traverseValue_max_l f1 f2 _ _ _ _ _ _ Hchild). reflexivity. }
      cbn [forEachField]. unfold bind at 1. rewrite Hstep.
      eapply forEachField_le; [|exact Hloop].
      intros. apply traverseValue_max_r. assumption.
    + set (st_b := onCtx popPath (onCtx addMissingField st_a)).
      assert (Hb : P st_b).
      { apply (P_grows Ha). unfold grows. simpl. auto. }
      destruct (Hrest st_b Hb) as (f2 & u & st' & Hloop).
      exists f2, u, st'.
      assert (Hstep : fieldStep (traverseValue f2) result ty data
                        fieldName sf st = Some (tt, st_b)).
      { unfold fieldStep. rewrite bind_modify, Hres. reflexivity. }
      cbn [forEachField]. unfold bind at 1. rewrite Hstep. exact Hloop.
Qed.

Lemma forEachItem_terminates sel ty items :
  (forall item st, In item items -> P st -> Terminates sel ty None item st) ->
  forall i st, P st ->
  exists fuel rs st',
    forEachItem (traverseValue fuel) sel ty i items st = Some (rs, st').
Proof.
  induction items as [|item rest IH]; intros Hitems i st HP.
  - exists O, [], st. reflexivity.
  - set (st_a := onCtx (pushPath (PIndex i)) st).
    assert (Ha : P st_a).
    { apply (P_grows HP). apply grows_onCtx. intros ctx. simpl. auto. }
    destruct (Hitems item st_a (or_introl eq_refl) Ha)
      as (f1 & r & st_d & Hchild).
    set (st_e := onCtx popPath st_d).
    assert (He : P st_e).
    { apply (P_grows Ha).
      eapply grows_trans;
        [eapply steps_grows, traverseValue_steps, Hchild|].
      unfold grows. simpl. auto. }
    destruct (IH (fun item' st1 Hin => Hitems item' st1 (or_intror Hin))
                (S i) st_e He) as (f2 & rs & st' & Hloop).
    exists (Nat.max f1 f2), (r :: rs), st'.
    assert (Hstep : itemStep (traverseValue (Nat.max f1 f2)) sel ty i item st
                    = Some (r, st_e)).
    { unfold itemStep. rewrite bind_modify. fold st_a. unfold bind at 1.
      rewrite (@traverseValue_max_l f1 f2 _ _ _ _ _ _ Hchild). reflexivity. }
    assert (Hloop' : forEachItem (traverseValue (Nat.max f1 f2)) sel ty (S i)
                       rest st_e = Some (rs, st')).
    { eapply forEachItem_le; [|exact Hloop].
      intros. apply traverseValue_max_r. assumption. }
    cbn [forEachItem]. unfold bind at 1. rewrite Hstep. unfold bind.
    rewrite Hloop'. reflexivity.
Qed.

Lemma object_terminates sel ty ent fields ea inv st :
  (forall l st1,
     newResult sel ent (validate ty (VObject fields ea inv) st).2
       = Some (l, st1) -> P st1) ->
  (forall doc ty' fieldName sf v st1,
     In (fieldName, sf)
        (getSelectionFields doc sel ty' (VObject fields ea inv)) ->
     resolveField (maybeGetfieldType ty' fieldName) (VObject fields ea inv)
       fieldName = Some v ->
     P st1 ->
     Terminates (selectionSet sf)
       (fieldType (maybeGetfieldType ty' fieldName)) None v st1) ->
  Terminates sel ty ent (VObject fields ea inv) st.
Proof.
  intros Hnew Hfields.
  destruct (newResult sel ent (validate ty (VObject fields ea inv) st).2)
    as [[l st1]|] eqn:Hl.
  2:{ unfold newResult in Hl. simpl in Hl.
      destruct ent, sel; discriminate. }
  destruct (forEachField_terminates l
              (validate ty (VObject fields ea inv) st).1
              (VObject fields ea inv)
              (getSelectionFields (ctx_selector (st_ctx st1)) sel
                 (validate ty (VObject fields ea inv) st).1
                 (VObject fields ea inv))
              (fun f sf v st2 Hin => Hfields _ _ f sf v st2 Hin)
              (Hnew l st1 eq_refl))
    as (fuel & u & st' & Hloop).
  exists (S fuel), (RObject l), st'.
  rewrite traverseValue_object. unfold bind at 1. rewrite Hl.
  unfold bind at 1. unfold bind. rewrite Hloop. reflexivity.
Qed.

End Loops.

Section Termination.

(** Selection sets shrink on the way down; without selection set nothing is
    selected below; computed fields yield values that the traversal returns
    as they are, or References. *)
Variable selSize : SelectionSetNode -> nat.

Hypothesis sel_decreases : forall doc ss ty data fieldName sf ss',
  In (fieldName, sf) (getSelectionFields doc (Some ss) ty data) ->
  selectionSet sf = Some ss' ->
  (selSize ss' < selSize ss)%nat.

Hypothesis all_flat : forall doc ty data fieldName sf,
  In (fieldName, sf) (getSelectionFields doc None ty data) ->
  selectionSet sf = None.

Hypothesis computed_flat : forall ty fieldName fc read data,
  maybeGetfieldType ty fieldName = Some fc ->
  fc_read fc = Some read ->
  isLeaf (read data fieldReadCtx) = true \/
  isReference (read data fieldReadCtx) = true.

(** The value of every entity of the consulted store is an object with
    metadata, or a value that the traversal returns as it is. *)
Variable cache : Cache.
Variable optimistic : bool.

Hypothesis entities_flat : forall entityID entity,
  get cache entityID optimistic = Some entity ->
  isObjectWithMeta (e_value entity) = true \/ isLeaf (e_value entity) = true.

Lemma leaf_terminates sel ty ent data st :
  isLeaf data = true -> Terminates sel ty ent data st.
Proof.
  intros Hleaf. exists 1%nat. do 2 eexists.
  apply traverseValue_leaf, Hleaf.
Qed.

Lemma reading_any_grows st st' :
  (exists u, reading cache optimistic u st) -> grows st st' ->
  exists u, reading cache optimistic u st'.
Proof. intros [u Hu] Hg. exists u. eapply reading_grows; eassumption. Qed.

Section Ranks.

Variables s u : nat.

Hypothesis IHs : forall sel ty ent data st u',
  (selMeasure selSize sel < s)%nat -> reading cache optimistic u' st ->
  Terminates sel ty ent data st.

Hypothesis IHu : forall sel ty ent data st u',
  (selMeasure selSize sel <= s)%nat -> (u' < u)%nat ->
  reading cache optimistic u' st ->
  Terminates sel ty ent data st.

Lemma reference_terminates sel ty ent entityID st :
  (selMeasure selSize sel <= s)%nat -> reading cache optimistic u st ->
  Terminates sel ty ent (VReference entityID) st.
Proof.
  intros Hs Hst. pose proof Hst as (Hc & Ho & Hu).
  destruct (get cache entityID optimistic) as [entity|] eqn:Hget.
  2:{ exists 1%nat. do 2 eexists. apply traverseValue_dangling.
      rewrite Hc, Ho. exact Hget. }
  set (st1 := check (EntityVisit (e_id entity) (e_expiresAt entity)
                       (e_invalidated entity)) st).
  assert (Hst1 : reading cache optimistic u st1)
    by (eapply reading_grows; [exact Hst | apply grows_check]).
  assert (Hstep : forall fuel,
    (sel = None ->
     memoized (ctx_fullEntityResults (st_ctx st)) (e_id entity) = None) ->
    traverseValue (S fuel) sel ty ent (VReference entityID) st =
      traverseValue fuel sel ty (Some entity) (e_value entity) st1).
  { intros fuel Hmemo. simpl. unfold traverseEntityWith.
    rewrite Hc, Ho, Hget. destruct sel; [reflexivity|].
    rewrite Hmemo by reflexivity. reflexivity. }
  assert (Hvia : (sel = None ->
                  memoized (ctx_fullEntityResults (st_ctx st)) (e_id entity)
                  = None) ->
                 Terminates sel ty (Some entity) (e_value entity) st1 ->
                 Terminates sel ty ent (VReference entityID) st).
  { intros Hmemo (fuel & r & st' & Hr). exists (S fuel), r, st'.
    rewrite Hstep by exact Hmemo. exact Hr. }
  destruct sel as [ss|].
  - (* a selection set: the selections of the fields are smaller *)
    apply Hvia; [discriminate|].
    destruct (entities_flat _ Hget) as [Hobj|Hleaf];
      [|apply leaf_terminates, Hleaf].
    destruct (e_value entity) as [| | | | | |fields ea inv| | | |];
      try discriminate Hobj.
    apply object_terminates
      with (P := fun st => exists u', reading cache optimistic u' st).
    + apply reading_any_grows.
    + intros l st2 Hnew. apply newResult_steps, steps_grows in Hnew.
      exists u. eapply reading_grows; [|exact Hnew].
      eapply reading_grows; [exact Hst1|].
      apply steps_grows, validate_steps.
    + intros doc ty' fieldName sf v st2 Hin _ [u' Hst2].
      eapply IHs; [|exact Hst2].
      simpl in Hs. destruct (selectionSet sf) as [ss'|] eqn:Hsf; simpl; [|lia].
      pose proof (sel_decreases _ _ _ _ _ _ Hin Hsf). lia.
  - (* no selection set: the entity is in the memo, or enters it now *)
    destruct (memoized (ctx_fullEntityResults (st_ctx st)) (e_id entity))
      as [m|] eqn:Hmemoized.
    { exists 1%nat, m, st. simpl. unfold traverseEntityWith.
      rewrite Hc, Ho, Hget, Hmemoized. reflexivity. }
    apply Hvia; [reflexivity|].
    apply memoized_None in Hmemoized. destruct Hmemoized as [Hmemo _].
    destruct (entities_flat _ Hget) as [Hobj|Hleaf];
      [|apply leaf_terminates, Hleaf].
    destruct (e_value entity) as [| | | | | |fields ea inv| | | |];
      try discriminate Hobj.
    apply object_terminates
      with (P := fun st => exists u', (u' < u)%nat /\
                                      reading cache optimistic u' st).
    + intros st2 st3 (u' & Hlt & Hst2) Hg. exists u'. split; [exact Hlt|].
      eapply reading_grows; eassumption.
    + intros l st2 Hnew. unfold newResult in Hnew. simpl in Hnew.
      injection Hnew as <- <-.
      set (st0 := (validate ty (VObject fields ea inv) st1).2).
      assert (Hst0 : reading cache optimistic u st0).
      { eapply reading_grows; [exact Hst1|].
        apply steps_grows, validate_steps. }
      assert (Hmemo0 : ctx_fullEntityResults (st_ctx st0) !! e_id entity
                       = None).
      { pose proof (validate_frame ty (VObject fields ea inv) st1)
          as (_ & _ & _ & _ & Hm & _).
        destruct (check_frame (EntityVisit (e_id entity) (e_expiresAt entity)
                                 (e_invalidated entity)) st)
          as (_ & _ & Hm1 & _).
        fold st0 in Hm. fold st1 in Hm1. rewrite Hm, Hm1. exact Hmemo. }
      set (st0' := mkState (st_ctx st0) (st_heap st0 ++ [[]]) (st_visits st0)).
      assert (Hlt : (unmemoized cache optimistic
                       (onCtx (fun ctx =>
                          setFullEntityResults
                            (<[e_id entity := length (st_heap st0)]>
                               (ctx_fullEntityResults ctx)) ctx) st0')
                     < unmemoized cache optimistic st0')%nat).
      { eapply unmemoized_insert; [exact Hget | exact Hmemo0]. }
      destruct Hst0 as (Hc0 & Ho0 & Hu0).
      eexists. split; [|split; [exact Hc0 | split; [exact Ho0 | reflexivity]]].
      unfold unmemoized in *. simpl in *. lia.
    + intros doc ty' fieldName sf v st2 Hin _ (u' & Hlt & Hst2).
      eapply IHu; [|exact Hlt | exact Hst2].
      rewrite (all_flat _ _ _ _ _ Hin). simpl. lia.
Qed.

Lemma value_terminates n :
  forall sel ty ent data st,
    (vsize data <= n)%nat ->
    (selMeasure selSize sel <= s)%nat -> reading cache optimistic u st ->
    Terminates sel ty ent data st.
Proof.
  induction n as [|n IHn]; intros sel ty ent data st Hn Hs Hst.
  { destruct data; simpl in Hn; lia. }
  destruct data as [| | | | |ref|fields ea inv|fields|items| |];
    try (apply leaf_terminates; reflexivity).
  - apply reference_terminates; assumption.
  - apply object_terminates with (P := reading cache optimistic u).
    + intros st1 st2. apply reading_grows.
    + intros l st1 Hnew. apply newResult_steps, steps_grows in Hnew.
      eapply reading_grows; [|exact Hnew].
      eapply reading_grows; [exact Hst|].
      apply steps_grows, validate_steps.
    + intros doc ty' fieldName sf v st1 Hin Hres Hst1.
      destruct sel as [ss|].
      * eapply IHs; [|exact Hst1].
        simpl in Hs.
        destruct (selectionSet sf) as [ss'|] eqn:Hsf; simpl; [|lia].
        pose proof (sel_decreases _ _ _ _ _ _ Hin Hsf). lia.
      * rewrite (all_flat _ _ _ _ _ Hin).
        unfold resolveField in Hres.
        destruct (maybeGetfieldType ty' fieldName) as [[fty [read|]]|]
          eqn:Hfc.
        -- injection Hres as <-.
           destruct (computed_flat _ _ (fc := mkFieldConfig fty (Some read))
                       (VObject fields ea inv) Hfc eq_refl)
             as [Hleaf|Href].
           ++ apply leaf_terminates, Hleaf.
           ++ destruct (read _ _); try discriminate Href.
              apply reference_terminates; [simpl; lia | exact Hst1].
        -- cbv beta iota in Hres.
           destruct (hasOwn _ _) eqn:Hown; [|discriminate].
           injection Hres as <-.
           destruct (vsize_stored _ ea inv _ Hown) as [Hleaf|Hlt];
             [apply leaf_terminates, Hleaf|].
           unfold getField in Hlt.
           apply IHn; [lia | simpl; lia | exact Hst1].
        -- cbv beta iota in Hres.
           destruct (hasOwn _ _) eqn:Hown; [|discriminate].
           injection Hres as <-.
           destruct (vsize_stored _ ea inv _ Hown) as [Hleaf|Hlt];
             [apply leaf_terminates, Hleaf|].
           unfold getField in Hlt.
           apply IHn; [lia | simpl; lia | exact Hst1].
  - assert (Hloop : exists fuel rs st',
              forEachItem (traverseValue fuel) sel
                (elementType (validate ty (VArray items) st).1) 0 items
                (validate ty (VArray items) st).2 = Some (rs, st')).
    { apply forEachItem_terminates with (P := reading cache optimistic u).
      - intros st1 st2. apply reading_grows.
      - intros item st1 Hin Hst1. apply IHn; [|exact Hs | exact Hst1].
        pose proof (vsize_item _ _ Hin). lia.
      - eapply reading_grows; [exact Hst|].
        apply steps_grows, validate_steps. }
    destruct Hloop as (fuel & rs & st' & Hloop).
    exists (S fuel), (RArray rs), st'. rewrite traverseValue_array.
    unfold bind. rewrite Hloop. reflexivity.
Qed.

End Ranks.

Lemma traverse_terminates s :
  forall u sel ty ent data st,
    (selMeasure selSize sel <= s)%nat -> reading cache optimistic u st ->
    Terminates sel ty ent data st.
Proof.
  induction s as [s IHs] using lt_wf_ind.
  induction u as [u IHu] using lt_wf_ind.
  intros sel ty ent data st Hs Hst.
  apply value_terminates with (s := s) (u := u) (n := vsize data);
    [| |lia|exact Hs|exact Hst].
  - intros sel' ty' ent' data' st1 u' Hlt Hst1.
    eapply (IHs _ Hlt); [|exact Hst1]. lia.
  - intros sel' ty' ent' data' st1 u' Hle Hlt Hst1.
    eapply (IHu _ Hlt); [exact Hle | exact Hst1].
Qed.

(** On a store of objects, under the conditions on the schema above, every
    read returns. *)
Theorem read_terminates now type options :
  exists fuel out,
    executeRead now fuel cache type optimistic options = Some out.
Proof.
  destruct (resolveEntity cache type (ro_id options) optimistic)
    as [entity|] eqn:Hroot.
  2:{ exists O. eexists. apply executeRead_not_found, Hroot. }
  destruct (traverse_terminates
              (s := selMeasure selSize
                      (getSelectionSet (ro_select options) type))
              (u := size (storeIds cache optimistic))
              (getSelectionSet (ro_select options) type) (Some type) None
              (VReference (e_id entity))
              (st := initialState cache optimistic (ro_select options)))
    as (fuel & r & st' & Hr).
  - lia.
  - unfold reading, unmemoized. simpl. split; [reflexivity|].
    split; [reflexivity|]. apply subseteq_size. set_solver.
  - destruct fuel as [|fuel]; [discriminate|].
    exists fuel. unfold executeRead. rewrite Hroot.
    simpl in Hr. unfold traverseEntity. unfold initialState in Hr.
    rewrite Hr. eexists. reflexivity.
Qed.

End Termination.

End Facts.

(** * Invariants of the traversal *)

Section Invariants.

Context `{Schema}.

(** ** The path and the diagnostics *)

(** Whatever a traversal returns, and through whichever branch, the path
    of the context is afterwards what it was before: every segment pushed
    for a field or an array index has been popped. *)
Theorem traverseValue_restores_path fuel sel ty ent data st r st' :
  traverseValue fuel sel ty ent data st = Some (r, st') ->
  ctx_path (st_ctx st') = ctx_path (st_ctx st).
Proof. intros Hr. eapply steps_path, traverseValue_steps, Hr. Qed.

Lemma steps_diagnostics st st' :
  steps st st' ->
  exists missing invalid,
    ctx_missingFields (st_ctx st') = ctx_missingFields (st_ctx st) ++ missing /\
    ctx_invalidFields (st_ctx st') = ctx_invalidFields (st_ctx st) ++ invalid /\
    Forall (fun m => ctx_path (st_ctx st) `prefix_of` mf_path m) missing /\
    Forall (fun i => ctx_path (st_ctx st) `prefix_of` if_path i) invalid.
Proof.
  induction 1 as [st|st1 st2 st3 H12 IH12 H23 IH23|st|st v|st v|st|st k l
                  |st l k r|st st' seg Hin IH].
  - exists [], []. rewrite !app_nil_r. auto.
  - destruct IH12 as (m1 & i1 & Hm1 & Hi1 & Fm1 & Fi1).
    destruct IH23 as (m2 & i2 & Hm2 & Hi2 & Fm2 & Fi2).
    apply steps_path in H12. rewrite H12 in Fm2, Fi2.
    exists (m1 ++ m2), (i1 ++ i2).
    rewrite Hm2, Hm1, Hi2, Hi1, !app_assoc.
    split; [reflexivity|]. split; [reflexivity|].
    split; apply Forall_app; auto.
  - exists [mkMissing (ctx_path (st_ctx st))], []. simpl.
    rewrite app_nil_r. repeat split; auto.
  - exists [], [mkInvalid (ctx_path (st_ctx st)) v]. simpl.
    rewrite app_nil_r. repeat split; auto.
  - exists [], []. rewrite !app_nil_r.
    pose proof (checks_frame (st_ctx st) (visitExpiresAt v)
                  (visitInvalidated v)) as Hc.
    simpl in Hc. simpl. intuition.
  - exists [], []. simpl. rewrite !app_nil_r. auto.
  - exists [], []. simpl. rewrite !app_nil_r. auto.
  - exists [], []. simpl. rewrite !app_nil_r. auto.
  - destruct IH as (m & i & Hm & Hi & Fm & Fi). exists m, i. simpl in *.
    split; [exact Hm|]. split; [exact Hi|].
    split; (eapply Forall_impl; [eassumption|]); simpl;
      intros x Hx; eapply prefix_app_l, Hx.
Qed.

(** A traversal only appends to the diagnostics: the missing and invalid
    fields recorded before it are kept, in order, and every entry it adds
    carries a path that extends the path at which the traversal started. *)
Theorem traverseValue_appends_diagnostics fuel sel ty ent data st r st' :
  traverseValue fuel sel ty ent data st = Some (r, st') ->
  exists missing invalid,
    ctx_missingFields (st_ctx st') = ctx_missingFields (st_ctx st) ++ missing /\
    ctx_invalidFields (st_ctx st') = ctx_invalidFields (st_ctx st) ++ invalid /\
    Forall (fun m => ctx_path (st_ctx st) `prefix_of` mf_path m) missing /\
    Forall (fun i => ctx_path (st_ctx st) `prefix_of` if_path i) invalid.
Proof. intros Hr. eapply steps_diagnostics, traverseValue_steps, Hr. Qed.

(** ** The heap of result objects *)

Lemma alter_middle {A : Type} (f : A -> A) (pre : list A) (o : A) post :
  alter f (length pre) (pre ++ o :: post) = pre ++ f o :: post.
Proof.
  induction pre as [|x pre IH]; simpl; [reflexivity|].
  f_equal. exact IH.
Qed.

Section HeapOfBody.

Variable rec :
  option SelectionSetNode -> option ValueType -> option Entity -> value ->
  M State Result.

Hypothesis rec_heap : forall sel ty ent data st r st',
  rec sel ty ent data st = Some (r, st') ->
  exists new, st_heap st' = st_heap st ++ new.

Lemma fieldStep_heap result ty data fieldName sf st u st' pre o post :
  fieldStep rec result ty data fieldName sf st = Some (u, st') ->
  st_heap st = pre ++ o :: post -> length pre = result ->
  exists o' new, st_heap st' = pre ++ o' :: post ++ new.
Proof.
  unfold fieldStep. rewrite bind_modify.
  intros (u1 & st1 & Hm & [= <- <-])%bind_Some Hheap Hlen.
  destruct (resolveField _ _ _) as [v|].
  - unfold visitField in Hm. rewrite bind_modify in Hm.
    apply bind_Some in Hm. destruct Hm as (r & st2 & Hrec & [= <- <-]).
    apply rec_heap in Hrec. destruct Hrec as (new & Hnew).
    simpl in Hnew. rewrite Hheap in Hnew.
    eexists _, new. simpl. rewrite Hnew, <- Hlen.
    rewrite <- app_assoc. simpl. apply alter_middle.
  - injection Hm as <- <-. exists o, []. simpl.
    rewrite app_nil_r. exact Hheap.
Qed.

Lemma forEachField_heap result ty data fields st u st' pre o post :
  forEachField rec result ty data fields st = Some (u, st') ->
  st_heap st = pre ++ o :: post -> length pre = result ->
  exists o' new, st_heap st' = pre ++ o' :: post ++ new.
Proof.
  revert st o post.
  induction fields as [|[fieldName sf] rest IH]; intros st o post; simpl.
  - intros [= <- <-] Hheap _. exists o, []. rewrite app_nil_r. exact Hheap.
  - intros (u1 & st1 & Hstep & Hrest)%bind_Some Hheap Hlen.
    eapply fieldStep_heap in Hstep; [|exact Hheap|exact Hlen].
    destruct Hstep as (o1 & new1 & Hheap1).
    destruct (IH _ _ _ Hrest Hheap1 Hlen) as (o2 & new2 & Hheap2).
    exists o2, (new1 ++ new2). rewrite Hheap2, app_assoc. reflexivity.
Qed.

Lemma forEachItem_heap sel ty items i st rs st' :
  forEachItem rec sel ty i items st = Some (rs, st') ->
  exists new, st_heap st' = st_heap st ++ new.
Proof.
  revert i st rs. induction items as [|item rest IH]; intros i st rs; simpl.
  - intros [= <- <-]. exists []. rewrite app_nil_r. reflexivity.
  - intros (r & st1 & Hi & (rs' & st2 & Hr & [= <- <-])%bind_Some)%bind_Some.
    unfold itemStep in Hi. rewrite bind_modify in Hi.
    apply bind_Some in Hi. destruct Hi as (r' & st1' & Hrec & [= <- <-]).
    apply rec_heap in Hrec. destruct Hrec as (new1 & Hnew1).
    apply IH in Hr. destruct Hr as (new2 & Hnew2).
    exists (new1 ++ new2). rewrite Hnew2. simpl in *.
    rewrite Hnew1, app_assoc. reflexivity.
Qed.

Lemma traverseValueWith_heap sel ty ent data st r st' :
  traverseValueWith rec sel ty ent data st = Some (r, st') ->
  exists new, st_heap st' = st_heap st ++ new.
Proof.
  assert (Hdata : traverseData rec sel ty ent data st = Some (r, st') ->
                  exists new, st_heap st' = st_heap st ++ new).
  { unfold traverseData.
    pose proof (validate_frame ty data st) as (_ & _ & _ & _ & _ & Hh).
    destruct (validate ty data st) as [ty' st0]. simpl in Hh.
    rewrite <- Hh. unfold traverseShape.
    destruct data;
      try (intros [= <- <-]; exists []; rewrite app_nil_r; reflexivity).
    - intros (l & st1 & Hn & (s0 & st2 & [= <- <-] &
               (u & st3 & Hf & [= <- <-])%bind_Some)%bind_Some)%bind_Some.
      assert (Hst1 : st_heap st1 = st_heap st0 ++ [] :: [] /\
                     length (st_heap st0) = l).
      { unfold newResult in Hn. simpl in Hn.
        destruct ent, sel; injection Hn as <- <-; simpl; auto. }
      destruct Hst1 as [Hst1 Hl].
      eapply forEachField_heap in Hf; [|exact Hst1|exact Hl].
      destruct Hf as (o' & new & Hheap).
      exists (o' :: new). rewrite Hheap. reflexivity.
    - intros (rs & st1 & Hf & [= <- <-])%bind_Some.
      eapply forEachItem_heap, Hf. }
  destruct data; try exact Hdata.
  simpl. unfold traverseEntityWith.
  destruct (get _ _ _) as [entity|];
    [|intros [= <- <-]; exists []; simpl; rewrite app_nil_r; reflexivity].
  destruct sel; [intros Hr; apply rec_heap in Hr; exact Hr|].
  destruct (memoized _ _);
    [intros [= <- <-]; exists []; rewrite app_nil_r; reflexivity
    | intros Hr; apply rec_heap in Hr; exact Hr].
Qed.

End HeapOfBody.

(** A traversal only adds result objects to the heap: every result object
    that existed when it started - the partly built results of the
    enclosing objects and of the entities in the memo among them - is
    afterwards what it was. *)
Theorem traverseValue_keeps_results fuel sel ty ent data st r st' :
  traverseValue fuel sel ty ent data st = Some (r, st') ->
  exists new, st_heap st' = st_heap st ++ new.
Proof.
  revert sel ty ent data st r st'.
  induction fuel as [|fuel IH]; intros sel ty ent data st r st'; simpl.
  - discriminate.
  - apply traverseValueWith_heap. exact IH.
Qed.

(** ** The memo *)

Section MemoOfBody.

Variable rec :
  option SelectionSetNode -> option ValueType -> option Entity -> value ->
  M State Result.

(** The callee is handed an entity without selection set only when the
    memo does not hold the entity yet. *)
Hypothesis rec_memo : forall sel ty ent data st r st',
  (forall e, ent = Some e -> sel = None ->
             ctx_fullEntityResults (st_ctx st) !! e_id e = None) ->
  rec sel ty ent data st = Some (r, st') ->
  ctx_fullEntityResults (st_ctx st) ⊆ ctx_fullEntityResults (st_ctx st').

Lemma fieldStep_memo result ty data fieldName sf st u st' :
  fieldStep rec result ty data fieldName sf st = Some (u, st') ->
  ctx_fullEntityResults (st_ctx st) ⊆ ctx_fullEntityResults (st_ctx st').
Proof.
  unfold fieldStep. rewrite bind_modify.
  intros (u1 & st1 & Hm & [= <- <-])%bind_Some.
  destruct (resolveField _ _ _) as [v|].
  - unfold visitField in Hm. rewrite bind_modify in Hm.
    apply bind_Some in Hm. destruct Hm as (r & st2 & Hrec & [= <- <-]).
    apply rec_memo in Hrec; [|discriminate].
    destruct (check_frame
                (FieldVisit
                   (ctx_path (st_ctx (onCtx (pushPath (PField fieldName)) st)))
                   (fieldExpiresAt data fieldName)
                   (fieldInvalidated data fieldName))
                (onCtx (pushPath (PField fieldName)) st))
      as (_ & _ & Hmemo & _).
    rewrite Hmemo in Hrec. exact Hrec.
  - injection Hm as <- <-. reflexivity.
Qed.

Lemma forEachField_memo result ty data fields st u st' :
  forEachField rec result ty data fields st = Some (u, st') ->
  ctx_fullEntityResults (st_ctx st) ⊆ ctx_fullEntityResults (st_ctx st').
Proof.
  revert st. induction fields as [|[fieldName sf] rest IH]; intros st; simpl.
  - intros [= <- <-]. reflexivity.
  - intros (u1 & st1 & Hstep & Hrest)%bind_Some.
    apply fieldStep_memo in Hstep. apply IH in Hrest.
    etransitivity; eassumption.
Qed.

Lemma forEachItem_memo sel ty items i st rs st' :
  forEachItem rec sel ty i items st = Some (rs, st') ->
  ctx_fullEntityResults (st_ctx st) ⊆ ctx_fullEntityResults (st_ctx st').
Proof.
  revert i st rs. induction items as [|item rest IH]; intros i st rs; simpl.
  - intros [= <- <-]. reflexivity.
  - intros (r & st1 & Hi & (rs' & st2 & Hr & [= <- <-])%bind_Some)%bind_Some.
    unfold itemStep in Hi. rewrite bind_modify in Hi.
    apply bind_Some in Hi. destruct Hi as (r' & st1' & Hrec & [= <- <-]).
    apply rec_memo in Hrec; [|discriminate]. apply IH in Hr.
    etransitivity; [exact Hrec | exact Hr].
Qed.

Lemma traverseEntityWith_memo entityID ty sel st r st' :
  traverseEntityWith rec entityID ty sel st = Some (r, st') ->
  ctx_fullEntityResults (st_ctx st) ⊆ ctx_fullEntityResults (st_ctx st').
Proof.
  unfold traverseEntityWith.
  destruct (get _ _ _) as [entity|]; [|intros [= <- <-]; reflexivity].
  set (v := EntityVisit _ _ _).
  destruct (check_frame v st) as (_ & _ & Hmemo & _).
  destruct sel as [ss|].
  - intros Hr. apply rec_memo in Hr; [|discriminate].
    rewrite Hmemo in Hr. exact Hr.
  - destruct (memoized _ _) eqn:Hlook; [intros [= <- <-]; reflexivity|].
    apply memoized_None in Hlook. destruct Hlook as [Hlook _].
    intros Hr. apply rec_memo in Hr.
    + rewrite Hmemo in Hr. exact Hr.
    + intros e [= <-] _. rewrite Hmemo. exact Hlook.
Qed.

Lemma traverseValueWith_memo sel ty ent data st r st' :
  (forall e, ent = Some e -> sel = None ->
             ctx_fullEntityResults (st_ctx st) !! e_id e = None) ->
  traverseValueWith rec sel ty ent data st = Some (r, st') ->
  ctx_fullEntityResults (st_ctx st) ⊆ ctx_fullEntityResults (st_ctx st').
Proof.
  intros Hpre.
  assert (Hdata : traverseData rec sel ty ent data st = Some (r, st') ->
            ctx_fullEntityResults (st_ctx st)
              ⊆ ctx_fullEntityResults (st_ctx st')).
  { unfold traverseData.
    pose proof (validate_frame ty data st) as (_ & _ & _ & _ & Hm & _).
    destruct (validate ty data st) as [ty' st0]. simpl in Hm.
    rewrite <- Hm. unfold traverseShape.
    destruct data; try (intros [= <- <-]; reflexivity).
    - intros (l & st1 & Hn & (s0 & st2 & [= <- <-] &
               (u & st3 & Hf & [= <- <-])%bind_Some)%bind_Some)%bind_Some.
      apply forEachField_memo in Hf.
      etransitivity; [|exact Hf].
      unfold newResult in Hn. simpl in Hn.
      destruct ent as [e|], sel as [ss|]; injection Hn as <- <-; simpl;
        try reflexivity.
      apply insert_subseteq. rewrite Hm. apply Hpre; reflexivity.
    - intros (rs & st1 & Hf & [= <- <-])%bind_Some.
      eapply forEachItem_memo, Hf. }
  destruct data; try exact Hdata.
  apply traverseEntityWith_memo.
Qed.

End MemoOfBody.

Lemma traverseValue_memo fuel sel ty ent data st r st' :
  (forall e, ent = Some e -> sel = None ->
             ctx_fullEntityResults (st_ctx st) !! e_id e = None) ->
  traverseValue fuel sel ty ent data st = Some (r, st') ->
  ctx_fullEntityResults (st_ctx st) ⊆ ctx_fullEntityResults (st_ctx st').
Proof.
  revert sel ty ent data st r st'.
  induction fuel as [|fuel IH]; intros sel ty ent data st r st' Hpre; simpl.
  - discriminate.
  - apply traverseValueWith_memo; [exact IH | exact Hpre].
Qed.

(** The memo is written once: the traversal of an entity keeps every entry
    that the memo held, with the result object it held. *)
Theorem traverseEntity_keeps_memo fuel entityID ty sel st r st' :
  traverseEntity fuel entityID ty sel st = Some (r, st') ->
  ctx_fullEntityResults (st_ctx st) ⊆ ctx_fullEntityResults (st_ctx st').
Proof. apply traverseEntityWith_memo. apply traverseValue_memo. Qed.

(** An entity whose value is an object with metadata and whose id is not
    a name that the memo inherits from [Object.prototype], visited without
    selection set, is answered by a result object that the memo holds
    afterwards; every later visit without selection set, in a state of the
    same read whose memo has kept its entries, is answered by that same
    object and changes nothing. *)
Theorem traverseEntity_shares_result fuel entityID ty st entity r st' :
  get (ctx_cache (st_ctx st)) entityID (ctx_optimistic (st_ctx st))
    = Some entity ->
  isObjectWithMeta (e_value entity) = true ->
  isInherited (e_id entity) = false ->
  traverseEntity fuel entityID ty None st = Some (r, st') ->
  exists l,
    r = RObject l /\
    ctx_fullEntityResults (st_ctx st') !! e_id entity = Some l /\
    forall fuel2 ty2 st2,
      ctx_cache (st_ctx st2) = ctx_cache (st_ctx st) ->
      ctx_optimistic (st_ctx st2) = ctx_optimistic (st_ctx st) ->
      ctx_fullEntityResults (st_ctx st') ⊆ ctx_fullEntityResults (st_ctx st2) ->
      traverseEntity fuel2 entityID ty2 None st2 = Some (RObject l, st2).
Proof.
  intros Hget Hobj Hown Hr.
  assert (Hl : exists l, r = RObject l /\
                 ctx_fullEntityResults (st_ctx st') !! e_id entity = Some l).
  { unfold traverseEntity, traverseEntityWith in Hr. rewrite Hget in Hr.
    destruct (ctx_fullEntityResults (st_ctx st) !! e_id entity) as [l|]
      eqn:Hmemo.
    { rewrite (memoized_own _ _ Hmemo) in Hr.
      injection Hr as <- <-. exists l. auto. }
    rewrite (proj2 (memoized_None _ _) (conj Hmemo Hown)) in Hr.
    destruct (e_value entity) as [| | | | | |fields ea inv| | | |];
      try discriminate Hobj.
    destruct fuel as [|fuel]; [discriminate|].
    rewrite traverseValue_object in Hr.
    apply bind_Some in Hr. destruct Hr as (l & st1 & Hn & Hr).
    apply bind_Some in Hr. destruct Hr as (s0 & st2 & [= <- <-] & Hr).
    apply bind_Some in Hr. destruct Hr as (u & st3 & Hf & [= <- <-]).
    exists l. split; [reflexivity|].
    eapply forEachField_memo in Hf; [|apply traverseValue_memo].
    eapply lookup_weaken; [|exact Hf].
    unfold newResult in Hn. simpl in Hn. injection Hn as <- <-. simpl.
    apply lookup_insert_eq. }
  destruct Hl as (l & -> & Hmemo'). exists l.
  split; [reflexivity|]. split; [exact Hmemo'|].
  intros fuel2 ty2 st2 Hc Ho Hsub.
  apply traverseEntity_memo_hit with (entity := entity).
  - rewrite Hc, Ho. exact Hget.
  - eapply lookup_weaken; eassumption.
Qed.

(** ** Expiry and invalidation *)

Lemma expiry_kept c es :
  c <> -1 ->
  exists c', foldl stepExpiresAt (Some c) es = Some c' /\ c' <> -1 /\ c' <= c.
Proof.
  revert c. induction es as [|e es IH]; intros c Hc; simpl.
  - exists c. repeat split; [exact Hc | lia].
  - assert (Hstep : exists c1, stepExpiresAt (Some c) e = Some c1 /\
                               c1 <> -1 /\ c1 <= c).
    { unfold stepExpiresAt. destruct e as [t|]; simpl.
      - replace (c =? -1) with false by lia. simpl.
        destruct (negb (t =? -1)) eqn:Ht; simpl;
          [|exists c; repeat split; [exact Hc | lia]].
        destruct (t <? c) eqn:Hlt.
        + exists t. repeat split; lia.
        + exists c. repeat split; [exact Hc | lia].
      - replace (c =? -1) with false by lia. simpl.
        exists c. repeat split; [exact Hc | lia]. }
    destruct Hstep as (c1 & -> & Hc1 & Hle).
    destruct (IH c1 Hc1) as (c' & -> & Hc' & Hle').
    exists c'. repeat split; [exact Hc' | lia].
Qed.

(** A traversal only tightens the roll-up: an [invalidated] flag that is
    set stays set, and a timestamp other than "no expiry" stays a timestamp
    other than "no expiry" and does not grow - also when a visited field
    has no recorded [expiresAt]. *)
Theorem traverseValue_tightens_rollup fuel sel ty ent data st r st' :
  traverseValue fuel sel ty ent data st = Some (r, st') ->
  (ctx_invalidated (st_ctx st) = true ->
   ctx_invalidated (st_ctx st') = true) /\
  (forall c, ctx_expiresAt (st_ctx st) = Some c -> c <> -1 ->
             exists c', ctx_expiresAt (st_ctx st') = Some c' /\
                        c' <> -1 /\ c' <= c).
Proof.
  intros Hr. apply traverseValue_steps, steps_rollup in Hr.
  destruct Hr as (vs & _ & He & Hi). split.
  - intros Hinv. rewrite Hi, Hinv. reflexivity.
  - intros c Hc Hne. rewrite He, Hc. apply expiry_kept, Hne.
Qed.

(** When the root entity itself is invalidated, or has expired, the result
    of the read is stale, whatever is selected and whatever the traversal
    meets - provided that the read has a selection set, or that the root's
    id is not a name that the memo inherits from [Object.prototype]: such a
    root, read without selection set, is answered at line 119 before the
    checks of lines 122-123. *)
Theorem executeRead_stale_root now fuel cache type optimistic options entity
    out :
  resolveEntity cache type (ro_id options) optimistic = Some entity ->
  get cache (e_id entity) optimistic = Some entity ->
  getSelectionSet (ro_select options) type <> None \/
    isInherited (e_id entity) = false ->
  e_invalidated entity = true \/
  (e_expiresAt entity <> -1 /\ e_expiresAt entity <= now) ->
  executeRead now fuel cache type optimistic options = Some out ->
  r_stale (out_result out) = true.
Proof.
  intros Hroot Hget Hsel Hstale Hread.
  destruct (executeRead_found _ _ _ _ _ _ Hroot Hread)
    as (data & st & Htr & -> & _). simpl.
  unfold traverseEntity, traverseEntityWith, initialState in Htr.
  simpl in Htr. rewrite Hget in Htr.
  set (v := EntityVisit (e_id entity) (e_expiresAt entity)
              (e_invalidated entity)) in Htr.
  set (st0 := mkState _ _ _) in Htr.
  assert (Hsteps : steps (check v st0) st).
  { destruct (getSelectionSet _ _) as [ss|];
      [eapply traverseValue_steps, Htr|].
    destruct Hsel as [Hsel|Hsel]; [contradiction|].
    rewrite (proj2 (memoized_None ∅ (e_id entity))
               (conj (lookup_empty _) Hsel)) in Htr.
    eapply traverseValue_steps, Htr. }
  apply steps_rollup in Hsteps. destruct Hsteps as (vs & _ & He & Hi).
  destruct (check_rollup v st0) as [He0 Hi0].
  rewrite He0 in He. rewrite Hi0 in Hi. simpl in He, Hi.
  destruct Hstale as [Hinv|[Hne Hle]].
  - rewrite Hi, Hinv. reflexivity.
  - unfold stepExpiresAt in He at 2. simpl in He.
    replace (negb (e_expiresAt entity =? -1)) with true in He
      by (symmetry; apply negb_true_iff; lia).
    simpl in He.
    destruct (expiry_kept (visitExpiresAt <$> vs) Hne) as (c' & Hc' & Hne' & Hle').
    rewrite Hc' in He. rewrite He. simpl.
    replace (negb (c' =? -1)) with true
      by (symmetry; apply negb_true_iff; lia).
    replace (c' <=? now) with true by lia.
    apply orb_true_r.
Qed.

(** The clock enters a read only through the [stale] flag: a read at a
    later time returns the same result, except that it may have become
    stale; a stale result does not become fresh again. *)
Theorem executeRead_later now now' fuel cache type optimistic options out :
  now <= now' ->
  executeRead now fuel cache type optimistic options = Some out ->
  exists out',
    executeRead now' fuel cache type optimistic options = Some out' /\
    r_data (out_result out') = r_data (out_result out) /\
    r_entityID (out_result out') = r_entityID (out_result out) /\
    r_expiresAt (out_result out') = r_expiresAt (out_result out) /\
    r_invalidated (out_result out') = r_invalidated (out_result out) /\
    r_missingFields (out_result out') = r_missingFields (out_result out) /\
    r_invalidFields (out_result out') = r_invalidFields (out_result out) /\
    out_heap out' = out_heap out /\
    (r_stale (out_result out) = true -> r_stale (out_result out') = true).
Proof.
  intros Hle. unfold executeRead.
  destruct (resolveEntity _ _ _ _) as [entity|].
  - destruct (traverseEntity _ _ _ _ _) as [[data st]|]; [|discriminate].
    intros [= <-]. eexists. split; [reflexivity|]. simpl.
    repeat (split; [reflexivity|]).
    rewrite !orb_true_iff, !andb_true_iff.
    intros [?|[Hne Hexp]]; [left; assumption|]. right. split; [exact Hne|].
    destruct (ctx_expiresAt (st_ctx st)) as [t|]; simpl in *;
      [|discriminate]. lia.
  - intros [= <-]. eexists. split; [reflexivity|]. simpl. auto 10.
Qed.

Lemma setExpiresAt_twice (ctx : ReadContext) a b :
  setExpiresAt a (setExpiresAt b ctx) = setExpiresAt a ctx.
Proof. reflexivity. Qed.

Lemma setExpiresAt_same (ctx : ReadContext) :
  setExpiresAt (ctx_expiresAt ctx) ctx = ctx.
Proof. destruct ctx. reflexivity. Qed.

(** For recorded timestamps the order of two checks does not matter: the
    context ends up the same whichever of the two is checked first. *)
Theorem checkExpiresAt_commutes (ctx : ReadContext) a b c :
  ctx_expiresAt ctx = Some c ->
  checkExpiresAt (checkExpiresAt ctx (Some a)) (Some b) =
  checkExpiresAt (checkExpiresAt ctx (Some b)) (Some a).
Proof.
  intros Hc.
  assert (Hone : forall t,
            checkExpiresAt ctx (Some t) =
              setExpiresAt
                (Some (if negb (t =? -1) && ((c =? -1) || (t <? c))
                       then t else c)) ctx).
  { intros t. unfold checkExpiresAt. rewrite Hc. simpl.
    destruct (negb (t =? -1) && ((c =? -1) || (t <? c))); [reflexivity|].
    rewrite <- Hc. symmetry. apply setExpiresAt_same. }
  assert (Htwo : forall t1 t2,
            checkExpiresAt (checkExpiresAt ctx (Some t1)) (Some t2) =
              setExpiresAt
                (Some (let c1 := if negb (t1 =? -1) && ((c =? -1) || (t1 <? c))
                                 then t1 else c in
                       if negb (t2 =? -1) && ((c1 =? -1) || (t2 <? c1))
                       then t2 else c1)) ctx).
  { intros t1 t2. rewrite Hone. unfold checkExpiresAt at 1. simpl.
    destruct (negb (t2 =? -1) && _); reflexivity. }
  rewrite !Htwo. f_equal. f_equal. simpl.
  destruct (a =? -1) eqn:Ha, (b =? -1) eqn:Hb, (c =? -1) eqn:Hcc; simpl;
    repeat (match goal with
            | |- context [?x <? ?y] => destruct (x <? y) eqn:?
            | |- context [?x =? ?y] => destruct (x =? y) eqn:?
            end; simpl); lia.
Qed.

(** ** Objects without composite fields *)

Lemma fieldStep_flat fuel result ty data fieldName sf st pre o :
  st_heap st = pre ++ [o] -> length pre = result ->
  (forall v, resolveField (maybeGetfieldType ty fieldName) data fieldName
             = Some v -> isLeaf v = true) ->
  exists st',
    fieldStep (traverseValue (S fuel)) result ty data fieldName sf st
      = Some (tt, st') /\
    st_heap st' = pre ++ [flatObject ty data [(fieldName, sf)] o] /\
    ctx_missingFields (st_ctx st') =
      ctx_missingFields (st_ctx st)
        ++ missingOf (ctx_path (st_ctx st)) ty data [(fieldName, sf)] /\
    ctx_path (st_ctx st') = ctx_path (st_ctx st).
Proof.
  intros Hheap Hlen Hleaf. unfold fieldStep, flatObject.
  cbn [fold_left missingOf fst snd]. rewrite bind_modify.
  destruct (resolveField (maybeGetfieldType ty fieldName) data fieldName)
    as [v|] eqn:Hres.
  - specialize (Hleaf v eq_refl).
    set (st_a := onCtx (pushPath (PField fieldName)) st).
    set (st_c := check (FieldVisit (ctx_path (st_ctx st_a))
                          (fieldExpiresAt data fieldName)
                          (fieldInvalidated data fieldName)) st_a).
    destruct (check_frame (FieldVisit (ctx_path (st_ctx st_a))
                             (fieldExpiresAt data fieldName)
                             (fieldInvalidated data fieldName)) st_a)
      as (_ & _ & _ & Hp & Hm). fold st_c in Hp, Hm.
    pose proof (validate_frame (fieldType (maybeGetfieldType ty fieldName))
                  v st_c) as (_ & _ & Hp' & Hm' & _ & Hh').
    set (st_d := (validate (fieldType (maybeGetfieldType ty fieldName))
                    v st_c).2) in *.
    exists (onCtx popPath
              (assign result (default fieldName (alias sf)) (RData v) st_d)).
    split.
    + unfold bind at 1. unfold visitField. rewrite bind_modify.
      fold st_c. unfold bind at 1.
      rewrite traverseValue_leaf by exact Hleaf. reflexivity.
    + split; [|split].
      * transitivity
          (alter (setProp (default fieldName (alias sf)) (RData v)) result
             (st_heap st_d)); [reflexivity|].
        rewrite Hh'.
        change (st_heap st_c) with (st_heap st).
        rewrite Hheap, <- Hlen. apply alter_middle.
      * transitivity (ctx_missingFields (st_ctx st_d)); [reflexivity|].
        rewrite Hm', Hm, app_nil_r. reflexivity.
      * transitivity (removelast (ctx_path (st_ctx st_d))); [reflexivity|].
        rewrite Hp', Hp. apply removelast_last.
  - eexists. split; [reflexivity|].
    split; [exact Hheap|]. split; [reflexivity|]. apply removelast_last.
Qed.

Lemma forEachField_flat fuel result ty data fs :
  forall st pre o,
    st_heap st = pre ++ [o] -> length pre = result ->
    (forall fieldName sf v,
       In (fieldName, sf) fs ->
       resolveField (maybeGetfieldType ty fieldName) data fieldName = Some v ->
       isLeaf v = true) ->
    exists st',
      forEachField (traverseValue (S fuel)) result ty data fs st
        = Some (tt, st') /\
      st_heap st' = pre ++ [flatObject ty data fs o] /\
      ctx_missingFields (st_ctx st') =
        ctx_missingFields (st_ctx st)
          ++ missingOf (ctx_path (st_ctx st)) ty data fs /\
      ctx_path (st_ctx st') = ctx_path (st_ctx st).
Proof.
  induction fs as [|[fieldName sf] rest IH]; intros st pre o Hheap Hlen Hleaf.
  - exists st. simpl. rewrite app_nil_r. auto.
  - destruct (@fieldStep_flat fuel result ty data fieldName sf st pre o
                Hheap Hlen)
      as (st1 & Hstep & Hheap1 & Hm1 & Hp1).
    { intros v. apply (Hleaf fieldName sf v). left. reflexivity. }
    destruct (IH st1 pre _ Hheap1 Hlen) as (st' & Hloop & Hheap' & Hm' & Hp').
    { intros f sf' v Hin. apply (Hleaf f sf' v). right. exact Hin. }
    exists st'. split.
    + cbn [forEachField]. unfold bind. rewrite Hstep. exact Hloop.
    + rewrite Hheap', Hm', Hm1, Hp', Hp1. split; [reflexivity|].
      split; [|reflexivity]. rewrite <- app_assoc. f_equal.
      cbn [missingOf]. simpl.
      destruct (resolveField _ _ _); reflexivity.
Qed.


(** ** Reads that return *)

Lemma executeRead_le now fuel fuel' cache type optimistic options out :
  (fuel <= fuel')%nat ->
  executeRead now fuel cache type optimistic options = Some out ->
  executeRead now fuel' cache type optimistic options = Some out.
Proof.
  intros Hle. unfold executeRead.
  destruct (resolveEntity _ _ _ _) as [entity|]; [|exact id].
  destruct (traverseEntity fuel _ _ _ _) as [[data st]|] eqn:Hr;
    [|discriminate].
  unfold traverseEntity in *.
  eapply traverseEntityWith_le in Hr.
  - rewrite Hr. exact id.
  - intros sel ty ent data' st1 r1. apply traverseValue_le, Hle.
Qed.

(** On a store in which the value of every entity is an object with
    metadata, or a value that the traversal returns as it is - whatever
    cycles the references between them form - every read returns, and it
    returns the same outcome with every larger recursion budget; provided
    that selection sets shrink on the way down, that nothing is selected
    below a field that is selected without selection set, and that computed
    fields yield values returned as they are, or References. *)
Theorem read_returns_on_object_stores (selSize : SelectionSetNode -> nat)
    cache optimistic now type options :
  (forall doc ss ty data fieldName sf ss',
     In (fieldName, sf) (getSelectionFields doc (Some ss) ty data) ->
     selectionSet sf = Some ss' -> (selSize ss' < selSize ss)%nat) ->
  (forall doc ty data fieldName sf,
     In (fieldName, sf) (getSelectionFields doc None ty data) ->
     selectionSet sf = None) ->
  (forall ty fieldName fc read data,
     maybeGetfieldType ty fieldName = Some fc ->
     fc_read fc = Some read ->
     isLeaf (read data fieldReadCtx) = true \/
     isReference (read data fieldReadCtx) = true) ->
  (forall entityID entity,
     get cache entityID optimistic = Some entity ->
     isObjectWithMeta (e_value entity) = true \/
     isLeaf (e_value entity) = true) ->
  exists fuel0 out,
    forall fuel, (fuel0 <= fuel)%nat ->
      executeRead now fuel cache type optimistic options = Some out.
Proof.
  intros Hsel Hall Hcomputed Hflat.
  destruct (read_terminates selSize Hsel Hall Hcomputed cache optimistic
              Hflat now type options) as (fuel0 & out & Hread).
  exists fuel0, out. intros fuel Hle. eapply executeRead_le; eassumption.
Qed.

End Invariants.

(** * The read on the sample schema *)

Import Sample.

(** The read of two authors that reference each other returns: the friend
    of the friend of author a is the result object of author a itself. *)
Example cyclic_read :
  exists out,
    executeRead 100 6 cyclic (Named "Author") false
      (mkReadOptions (VString "a") None) = Some out /\
    r_data (out_result out) = Some (RObject 0) /\
    out_heap out =
      [ [("name", RData (VString "A")); ("friend", RObject 1)];
        [("name", RData (VString "B")); ("friend", RObject 0)] ].
Proof. eexists. split; [vm_compute; reflexivity|]. split; reflexivity. Qed.

(** An array is read element by element, in order; a dangling reference
    among the elements leaves [undefined] in its place and its path among
    the missing fields. *)
Example array_read :
  exists out,
    executeRead 100 6 stalePost (Named "Post") false
      (mkReadOptions (VString "1") (select ["tags"])) = Some out /\
    out_heap out =
      [ [("tags", RArray [RData (VString "a"); RData VUndefined;
                          RData (VString "b")])] ] /\
    r_missingFields (out_result out)
      = Some [mkMissing [PField "tags"; PIndex 1]].
Proof. eexists. split; [vm_compute; reflexivity|]. split; reflexivity. Qed.

(** A computed field has no recorded [expiresAt]: visited before the
    expired title it leaves the result without [expiresAt] and not stale;
    visited after it, the result expires at 7 and is stale. *)
Example computed_field_masks_expiry :
  exists out1 out2,
    executeRead 100 6 expiredTitle (Named "Post") false
      (mkReadOptions (VString "1") (select ["shout"; "title"])) = Some out1 /\
    r_expiresAt (out_result out1) = None /\
    r_stale (out_result out1) = false /\
    executeRead 100 6 expiredTitle (Named "Post") false
      (mkReadOptions (VString "1") (select ["title"; "shout"])) = Some out2 /\
    r_expiresAt (out_result out2) = Some 7 /\
    r_stale (out_result out2) = true.
Proof.
  do 2 eexists. split; [vm_compute; reflexivity|].
  split; [reflexivity|]. split; [reflexivity|].
  split; [vm_compute; reflexivity|]. split; reflexivity.
Qed.

(** A reference, met without selection set, to an entity whose id names a
    member of [Object.prototype] is answered with that member: the entity
    is not traversed, and its expiry and invalidation are not rolled up. *)
Example inherited_id_is_answered_from_the_memo :
  traverseValue 3 None None None (VReference "toString")
    (initialState shadowed false None)
  = Some (RInherited "toString", initialState shadowed false None).
Proof. vm_compute. reflexivity. Qed.

(** A field whose name is the name of a member of [Object.prototype], and
    for which the object records no invalidation, reads as invalidated. *)
Example inherited_field_name_reads_invalidated :
  exists out,
    executeRead 100 6 oddlyNamed (Named "Post") false
      (mkReadOptions (VString "1") None) = Some out /\
    r_invalidated (out_result out) = true /\
    r_stale (out_result out) = true.
Proof. eexists. split; [vm_compute; reflexivity|]. split; reflexivity. Qed.

(** C1: the read of an array-valued entity that holds a reference to
    itself returns within no recursion budget: the memo is filled for
    result objects only, and the traversal of the array meets the entity
    again and again. *)
Theorem C1_self_referencing_array_never_returns now fuel :
  executeRead now fuel selfList (Named "Authors") false
    (mkReadOptions (VString "x") None) = None.
Proof.
  eapply executeRead_array_cycle.
  - vm_compute. reflexivity.
  - vm_compute. reflexivity.
  - reflexivity.
  - reflexivity.
Qed.

Lemma C2_witness :
  exists out,
    executeRead 100 6 stalePost (Named "Post") false
      (mkReadOptions (VString "1") None) = Some out /\
    (r_stale (out_result out) = true <->
     (r_invalidated (out_result out) = true \/
      exists t, r_expiresAt (out_result out) = Some t /\ t <> -1 /\ t <= 100)).
Proof.
  eexists. split; [vm_compute; reflexivity|].
  eapply C2_stale_iff
    with (fuel := 6%nat) (cache := stalePost) (type := Named "Post")
         (optimistic := false) (options := mkReadOptions (VString "1") None);
    vm_compute; reflexivity.
Defined.



Lemma C4_witness :
  exists out,
    executeRead 100 0 stalePost (Named "Post") false
      (mkReadOptions (VString "2") None) = Some out /\
    out_result out =
      mkReadResult None None (Some (-1)) None false None None true.
Proof.
  apply C4_unresolved_root
    with (cache := stalePost) (type := Named "Post")
         (options := mkReadOptions (VString "2") None).
  vm_compute. reflexivity.
Defined.



(** Post.author is computed from Post.authorId: the Reference that the
    function returns is traversed, and the author's result object is stored
    under the alias.  Post.title has no [read] function: the stored title
    is traversed with the type of the field and stored under the field's
    name. *)
Lemma C7_witness :
  let st := (alloc (initialState expiring false None)).2 in
  (fieldValueSpec (Some (Named "Post")) signedPost "author"
     (VReference "Author:b") /\
   exists st' r st1,
     fieldStep (traverseValue 3) 0 (Some (Named "Post")) signedPost "author"
       (mkFieldNode (Some "writer") None) st = Some (tt, st') /\
     traverseValue 3 None (Some (Named "Author")) None (VReference "Author:b")
       (check (FieldVisit [PField "author"] None None)
          (onCtx (pushPath (PField "author")) st)) = Some (r, st1) /\
     r = RObject 1 /\
     st_heap st' = alter (setProp "writer" r) 0%nat (st_heap st1) /\
     st_heap st' = [[("writer", RObject 1)]; [("name", RData (VString "B"))]]) /\
  (fieldValueSpec (Some (Named "Post")) signedPost "title" (VString "T") /\
   exists st' r st1,
     fieldStep (traverseValue 3) 0 (Some (Named "Post")) signedPost "title"
       (mkFieldNode None None) st = Some (tt, st') /\
     traverseValue 3 None (Some StringTy) None (VString "T")
       (check (FieldVisit [PField "title"] (Some (-1)) (Some false))
          (onCtx (pushPath (PField "title")) st)) = Some (r, st1) /\
     r = RData (VString "T") /\
     st_heap st' = alter (setProp "title" r) 0%nat (st_heap st1) /\
     st_heap st' = [[("title", RData (VString "T"))]]).
Proof.
  intros st. split.
  - assert (Hspec : fieldValueSpec (Some (Named "Post")) signedPost "author"
                      (VReference "Author:b")).
    { exact (fieldValue_computed (H := schema) (Some (Named "Post")) signedPost
               "author"
               (fc := mkFieldConfig (Some (Named "Author"))
                        (Some (fun post ctx =>
                                 toReference ctx
                                   (mkIdentify (Named "Author")
                                      (getField post "authorId")))))
               eq_refl eq_refl). }
    split; [exact Hspec|].
    destruct (fieldStep (traverseValue (H := schema) 3) 0 (Some (Named "Post"))
                signedPost "author" (mkFieldNode (Some "writer") None) st)
      as [[[] st']|] eqn:E; [|vm_compute in E; discriminate].
    destruct (proj1 (proj1 (@C7_field_value schema 3 0
                              (Some (Named "Post")) signedPost "author"
                              (mkFieldNode (Some "writer") None) st st'
                              (VReference "Author:b") Hspec))
                E) as (r & st1 & Hrec & Hheap & _).
    exists st', r, st1. split; [reflexivity|]. split; [exact Hrec|].
    assert (Hr : r = RObject 1).
    { vm_compute in Hrec. injection Hrec as <- _. reflexivity. }
    split; [exact Hr|]. split; [exact Hheap|].
    vm_compute in E. injection E as <-. reflexivity.
  - assert (Hspec : fieldValueSpec (Some (Named "Post")) signedPost "title"
                      (VString "T")).
    { apply (fieldValue_stored (H := schema) (Some (Named "Post")) signedPost
               "title"); [|reflexivity].
      intros fc [= <-]. reflexivity. }
    split; [exact Hspec|].
    destruct (fieldStep (traverseValue (H := schema) 3) 0 (Some (Named "Post"))
                signedPost "title" (mkFieldNode None None) st)
      as [[[] st']|] eqn:E; [|vm_compute in E; discriminate].
    destruct (proj1 (proj1 (@C7_field_value schema 3 0
                              (Some (Named "Post")) signedPost "title"
                              (mkFieldNode None None) st st'
                              (VString "T") Hspec))
                E) as (r & st1 & Hrec & Hheap & _).
    exists st', r, st1. split; [reflexivity|]. split; [exact Hrec|].
    assert (Hr : r = RData (VString "T")).
    { vm_compute in Hrec. injection Hrec as <- _. reflexivity. }
    split; [exact Hr|]. split; [exact Hheap|].
    vm_compute in E. injection E as <-. reflexivity.
Defined.

(** An array of strings that holds a number: the elements are traversed
    with the element type of the array's type, so the number is recorded as
    invalid at its index. *)
Lemma C8_witness :
  exists rs st',
    traverseValue 2 None (Some (ArrayOf StringTy)) None
      (VArray [VString "a"; VNumber 1]) (initialState stalePost false None)
      = Some (RArray rs, st') /\
    length rs = 2%nat /\
    eachItem 1 None (Some StringTy) [] 0 [VString "a"; VNumber 1] rs
      (initialState stalePost false None) st' /\
    rs = [RData (VString "a"); RData (VNumber 1)] /\
    ctx_invalidFields (st_ctx st') = [mkInvalid [PIndex 1] (VNumber 1)].
Proof.
  destruct (traverseValue (H := schema) 2 None (Some (ArrayOf StringTy)) None
              (VArray [VString "a"; VNumber 1])
              (initialState stalePost false None)) as [[r st']|] eqn:E;
    [|vm_compute in E; discriminate].
  destruct (proj1 (@C8_array schema 1 None (Some (ArrayOf StringTy)) None
                     [VString "a"; VNumber 1]
                     (initialState stalePost false None) r st') E)
    as (rs & -> & Hlen & Hitems).
  exists rs, st'. split; [reflexivity|]. split; [exact Hlen|].
  split; [exact Hitems|].
  vm_compute in E. injection E as <- <-. split; reflexivity.
Defined.

Lemma C9_witness :
  exists out,
    executeRead 100 6 cyclic (Named "Author") false
      (mkReadOptions (VString "a") None) = Some out /\
    out_cache out = cyclic.
Proof.
  eexists. split; [vm_compute; reflexivity|].
  eapply C9_read_preserves_cache
    with (now := 100) (fuel := 6%nat) (type := Named "Author")
         (optimistic := false) (options := mkReadOptions (VString "a") None).
  vm_compute. reflexivity.
Defined.

(** Post.author has a computed [read] function; when it returns a
    Reference to an author that is not stored, the field is recorded in
    [missingFields]. *)
Lemma C10_counterexample :
  exists fc read out,
    maybeGetfieldType (Some (Named "Post")) "author" = Some fc /\
    fc_read fc = Some read /\
    executeRead 100 6 orphan (Named "Post") false
      (mkReadOptions (VString "1") (select ["author"])) = Some out /\
    r_missingFields (out_result out) = Some [mkMissing [PField "author"]].
Proof.
  do 3 eexists. split; [reflexivity|]. split; [reflexivity|].
  split; [vm_compute; reflexivity | reflexivity].
Qed.

Lemma C10_witness :
  exists st',
    fieldStep (traverseValue 1) 0 (Some (Named "Post")) orphanPost "shout"
      (mkFieldNode None None) (alloc (initialState orphan false None)).2
      = Some (tt, st') /\
    ctx_missingFields (st_ctx st') = [] /\
    st_heap st' = [[("shout", RData VUndefined)]].
Proof.
  destruct (C10_computed_not_missing (H := schema) 0 0 (Some (Named "Post"))
              orphanPost
              "shout" (mkFieldNode None None)
              (fc := mkFieldConfig None (Some (fun _ _ => VUndefined)))
              (alloc (initialState orphan false None)).2 eq_refl eq_refl)
    as [_ Hleaf].
  destruct (Hleaf eq_refl) as (st' & Hstep & Hmissing & Hheap).
  exists st'. split; [exact Hstep|]. split; [exact Hmissing | exact Hheap].
Defined.

(** ** Reads of stores of objects return *)

Lemma replaceProp_In {A : Type} k (a : A) l l' k' a' :
  replaceProp k a l = Some l' ->
  In (k', a') l' -> (k', a') = (k, a) \/ In (k', a') l.
Proof.
  revert l'. induction l as [|[k0 a0] l IH]; intros l'; simpl; [discriminate|].
  destruct (String.eqb k k0).
  - intros [= <-] [Heq|Hin]; [left; congruence | right; right; exact Hin].
  - destruct (replaceProp k a l) as [l''|]; [|discriminate].
    intros [= <-] [Heq|Hin]; [right; left; exact Heq|].
    destruct (IH _ eq_refl Hin) as [?|?];
      [left; assumption | right; right; assumption].
Qed.

Lemma insertIndex_In {A : Type} n k (a : A) l k' a' :
  In (k', a') (insertIndex n k a l) -> (k', a') = (k, a) \/ In (k', a') l.
Proof.
  induction l as [|[k0 a0] l IH]; simpl.
  - intros [Heq|[]]. left. congruence.
  - destruct (arrayIndex k0) as [m|]; [destruct (m <? n)%N|]; simpl.
    + intros [Heq|Hin]; [right; left; exact Heq|].
      destruct (IH Hin) as [?|?]; [left; assumption | right; right; assumption].
    + intros [Heq|Hin]; [left; congruence | right; exact Hin].
    + intros [Heq|Hin]; [left; congruence | right; exact Hin].
Qed.

Lemma setProp_In {A : Type} k (a : A) l k' a' :
  In (k', a') (setProp k a l) -> (k', a') = (k, a) \/ In (k', a') l.
Proof.
  unfold setProp. destruct (String.eqb k "__proto__"); [auto|].
  destruct (replaceProp k a l) as [l'|] eqn:Hrep;
    [eapply replaceProp_In, Hrep|].
  destruct (arrayIndex k) as [n|]; [apply insertIndex_In|].
  intros [Hin|[Heq|[]]]%in_app_or; [right; exact Hin | left; congruence].
Qed.

Lemma selectionSize_le s sels :
  In s sels -> (selectionSize s <= setSize sels)%nat.
Proof.
  unfold setSize. induction sels as [|s' sels IH]; simpl; [contradiction|].
  intros [->|Hin]; [lia|]. specialize (IH Hin). lia.
Qed.

Lemma star_fields data acc fieldName sf :
  In (fieldName, sf)
     (fold_left (fun a kv => match assoc kv.1 a with
                             | Some _ => a
                             | None => a ++ [kv]
                             end) (fieldsOfData data) acc) ->
  In (fieldName, sf) acc \/ selectionSet sf = None.
Proof.
  assert (Hnone : forall kv, In kv (fieldsOfData data) ->
                             selectionSet kv.2 = None).
  { destruct data; simpl; try contradiction.
    intros kv (kv' & <- & _)%in_map_iff. reflexivity. }
  revert acc Hnone. induction (fieldsOfData data) as [|kv l IH];
    intros acc Hnone; simpl; [auto|].
  intros Hin. apply IH in Hin; [|intros; apply Hnone; right; assumption].
  destruct Hin as [Hin|?]; [|auto].
  destruct (assoc kv.1 acc); [auto|].
  apply in_app_or in Hin. destruct Hin as [?|[Heq|[]]]; [auto|].
  right. specialize (Hnone kv (or_introl eq_refl)).
  rewrite Heq in Hnone. exact Hnone.
Qed.

Lemma pick_smaller data bound sels :
  forall acc,
    (forall s, In s sels -> (selectionSize s <= bound)%nat) ->
    (forall fieldName sf sub,
       In (fieldName, sf) acc -> selectionSet sf = Some sub ->
       (setSize sub < bound)%nat) ->
    forall fieldName sf sub,
      In (fieldName, sf) (pick data sels acc) -> selectionSet sf = Some sub ->
      (setSize sub < bound)%nat.
Proof.
  induction sels as [|s sels IH]; intros acc Hsels Hacc; simpl; [exact Hacc|].
  assert (Hrest : forall s', In s' sels -> (selectionSize s' <= bound)%nat)
    by (intros; apply Hsels; right; assumption).
  destruct s as [|name al sub0].
  - apply IH; [exact Hrest|].
    intros fieldName sf sub Hin Hsub.
    apply star_fields in Hin. destruct Hin as [Hin|Hnone]; [|congruence].
    eapply Hacc; eassumption.
  - apply IH; [exact Hrest|].
    intros fieldName sf sub Hin Hsub.
    apply setProp_In in Hin. destruct Hin as [[= -> ->]|Hin];
      [|eapply Hacc; eassumption].
    simpl in Hsub. subst sub0.
    specialize (Hsels _ (or_introl eq_refl)). simpl in Hsels.
    unfold setSize. lia.
Qed.

Lemma sample_sel_decreases doc ss ty data fieldName sf ss' :
  In (fieldName, sf) (getSelectionFields doc (Some ss) ty data) ->
  selectionSet sf = Some ss' -> (setSize ss' < setSize ss)%nat.
Proof.
  intros Hin Hsub. simpl in Hin.
  eapply pick_smaller with (acc := []); [| |exact Hin|exact Hsub].
  - intros s Hs. apply selectionSize_le, Hs.
  - intros ? ? ? [].
Qed.

Lemma sample_all_flat doc ty data fieldName sf :
  In (fieldName, sf) (getSelectionFields doc None ty data) ->
  selectionSet sf = None.
Proof.
  intros Hin. simpl in Hin.
  destruct data; simpl in Hin; try contradiction.
  apply in_map_iff in Hin. destruct Hin as (kv & [= _ <-] & _).
  reflexivity.
Qed.

Lemma sample_computed_flat ty fieldName fc read data :
  maybeGetfieldType ty fieldName = Some fc ->
  fc_read fc = Some read ->
  isLeaf (read data fieldReadCtx) = true \/
  isReference (read data fieldReadCtx) = true.
Proof.
  intros Hfc Hread.
  simpl in Hfc. unfold fieldConfig in Hfc.
  destruct ty as [[name| |]|]; try discriminate Hfc.
  destruct (String.eqb name "Post"); [|discriminate Hfc]. simpl in Hfc.
  destruct (String.eqb fieldName "title");
    [injection Hfc as <-; discriminate Hread|].
  destruct (String.eqb fieldName "author").
  { injection Hfc as <-. injection Hread as <-. simpl.
    destruct (identifyByName _) as [entityID|]; [|auto].
    destruct (String.eqb entityID ""); simpl; auto. }
  destruct (String.eqb fieldName "shout"); [|discriminate Hfc].
  injection Hfc as <-. injection Hread as <-. auto.
Qed.

(** On the sample schema, the read of a store in which every entity's
    value is an object with metadata, or a value returned as it is,
    returns, whatever cycles the references form. *)
Theorem sample_read_terminates cache optimistic now type options :
  (forall entityID entity,
     get cache entityID optimistic = Some entity ->
     isObjectWithMeta (e_value entity) = true \/
     isLeaf (e_value entity) = true) ->
  exists fuel out,
    executeRead now fuel cache type optimistic options = Some out.
Proof.
  intros Hflat.
  apply read_terminates with (selSize := setSize); [| | |exact Hflat].
  - apply sample_sel_decreases.
  - apply sample_all_flat.
  - apply sample_computed_flat.
Qed.

Lemma sample_read_terminates_witness :
  exists fuel out,
    executeRead 100 fuel cyclic (Named "Author") false
      (mkReadOptions (VString "a") None) = Some out.
Proof.
  apply sample_read_terminates.
  intros entityID entity Hget. unfold get in Hget.
  revert entityID entity Hget.
  apply (bool_decide_unpack
           (map_Forall (fun _ entity =>
                          isObjectWithMeta (e_value entity) = true \/
                          isLeaf (e_value entity) = true)
              (entities cyclic))).
  vm_compute. exact I.
Defined.

(** ** The invariants on the sample schema *)

Lemma traverseValue_restores_path_witness :
  exists r st',
    traverseValue (H := schema) 6 None (Some (Named "Post")) None (VReference "Post:1")
      inField = Some (r, st') /\
    ctx_path (st_ctx st') = ctx_path (st_ctx inField).
Proof.
  destruct (traverseValue (H := schema) 6 None (Some (Named "Post")) None
              (VReference "Post:1") inField) as [[r st']|] eqn:E;
    [|vm_compute in E; discriminate].
  exists r, st'. split; [reflexivity|].
  eapply traverseValue_restores_path, E.
Defined.

Lemma traverseValue_appends_diagnostics_witness :
  exists r st' missing invalid,
    traverseValue (H := schema) 6 None (Some (Named "Post")) None (VReference "Post:1")
      inField = Some (r, st') /\
    ctx_missingFields (st_ctx st')
      = ctx_missingFields (st_ctx inField) ++ missing /\
    ctx_invalidFields (st_ctx st')
      = ctx_invalidFields (st_ctx inField) ++ invalid /\
    Forall (fun m => ctx_path (st_ctx inField) `prefix_of` mf_path m) missing /\
    Forall (fun i => ctx_path (st_ctx inField) `prefix_of` if_path i) invalid.
Proof.
  destruct (traverseValue (H := schema) 6 None (Some (Named "Post")) None
              (VReference "Post:1") inField) as [[r st']|] eqn:E;
    [|vm_compute in E; discriminate].
  destruct (traverseValue_appends_diagnostics _ _ _ _ _ _ E)
    as (missing & invalid & Hm).
  exists r, st', missing, invalid. split; [reflexivity | exact Hm].
Defined.

Lemma traverseValue_keeps_results_witness :
  exists r st' new,
    traverseValue (H := schema) 6 None (Some (Named "Post")) None (VReference "Post:1")
      inField = Some (r, st') /\
    st_heap st' = st_heap inField ++ new.
Proof.
  destruct (traverseValue (H := schema) 6 None (Some (Named "Post")) None
              (VReference "Post:1") inField) as [[r st']|] eqn:E;
    [|vm_compute in E; discriminate].
  destruct (traverseValue_keeps_results _ _ _ _ _ _ E) as (new & Hnew).
  exists r, st', new. split; [reflexivity | exact Hnew].
Defined.

(** Author a is traversed in a state whose memo holds author b: the memo
    afterwards holds author b with the result object it had, and author a
    with a new one. *)
Lemma traverseEntity_keeps_memo_witness :
  exists r st',
    traverseEntity (H := schema) 6 "Author:a" None None metB = Some (r, st') /\
    ctx_fullEntityResults (st_ctx metB) !! "Author:b" = Some 0%nat /\
    ctx_fullEntityResults (st_ctx metB)
      ⊆ ctx_fullEntityResults (st_ctx st') /\
    ctx_fullEntityResults (st_ctx st') !! "Author:b" = Some 0%nat /\
    ctx_fullEntityResults (st_ctx st') !! "Author:a" = Some 1%nat.
Proof.
  destruct (traverseEntity (H := schema) 6 "Author:a" None None metB)
    as [[r st']|] eqn:E; [|vm_compute in E; discriminate].
  pose proof (@traverseEntity_keeps_memo schema 6 "Author:a" None None metB
                r st' E) as Hkept.
  exists r, st'. split; [reflexivity|].
  assert (Hb : ctx_fullEntityResults (st_ctx metB) !! "Author:b" = Some 0%nat)
    by (vm_compute; reflexivity).
  split; [exact Hb|]. split; [exact Hkept|].
  split; [eapply lookup_weaken; [exact Hb | exact Hkept]|].
  vm_compute in E. injection E as _ <-. vm_compute. reflexivity.
Defined.

Lemma traverseEntity_shares_result_witness :
  exists r st' l,
    traverseEntity (H := schema) 6 "Author:a" None None (initialState cyclic false None)
      = Some (r, st') /\
    r = RObject l /\
    traverseEntity (H := schema) 0 "Author:a" None None st' = Some (RObject l, st').
Proof.
  destruct (traverseEntity (H := schema) 6 "Author:a" None None
              (initialState cyclic false None)) as [[r st']|] eqn:E;
    [|vm_compute in E; discriminate].
  assert (Hget : exists entity,
            get cyclic "Author:a" false = Some entity /\
            isObjectWithMeta (e_value entity) = true /\
            isInherited (e_id entity) = false).
  { eexists. split; [vm_compute; reflexivity | split; reflexivity]. }
  destruct Hget as (entity & Hget & Hobj & Hown).
  destruct (traverseEntity_shares_result (H := schema) 6 "Author:a" None
              (initialState cyclic false None) Hget Hobj Hown E)
    as (l & Hr & _ & Hlater).
  exists r, st', l. split; [reflexivity|]. split; [exact Hr|].
  apply Hlater; [| |reflexivity].
  - eapply steps_cache, traverseEntity_steps, E.
  - eapply steps_cache, traverseEntity_steps, E.
Defined.

Lemma traverseValue_tightens_rollup_witness :
  exists r st' c',
    traverseValue (H := schema) 6 None (Some (Named "Post")) None (VReference "Post:1")
      (onCtx (setExpiresAt (Some 9)) inField) = Some (r, st') /\
    ctx_expiresAt (st_ctx st') = Some c' /\ c' <> -1 /\ c' <= 9.
Proof.
  destruct (traverseValue (H := schema) 6 None (Some (Named "Post")) None
              (VReference "Post:1") (onCtx (setExpiresAt (Some 9)) inField))
    as [[r st']|] eqn:E; [|vm_compute in E; discriminate].
  destruct (traverseValue_tightens_rollup _ _ _ _ _ _ E) as [_ Hexp].
  destruct (Hexp 9 eq_refl) as (c' & Hc'); [lia|].
  exists r, st', c'. split; [reflexivity | exact Hc'].
Defined.

Lemma executeRead_stale_root_witness :
  exists out,
    executeRead (H := schema) 100 6 expiring (Named "Author") false
      (mkReadOptions (VString "b") None) = Some out /\
    r_stale (out_result out) = true.
Proof.
  destruct (executeRead (H := schema) 100 6 expiring (Named "Author") false
              (mkReadOptions (VString "b") None)) as [out|] eqn:E;
    [|vm_compute in E; discriminate].
  exists out. split; [reflexivity|].
  eapply executeRead_stale_root
    with (now := 100) (fuel := 6%nat) (cache := expiring)
         (type := Named "Author") (optimistic := false)
         (options := mkReadOptions (VString "b") None);
    [vm_compute; reflexivity | vm_compute; reflexivity
    | right; reflexivity | | exact E].
  right. simpl. lia.
Defined.

Lemma executeRead_later_witness :
  exists out out',
    executeRead (H := schema) 10 6 expiring (Named "Comment") false
      (mkReadOptions (VString "1") None) = Some out /\
    executeRead (H := schema) 100 6 expiring (Named "Comment") false
      (mkReadOptions (VString "1") None) = Some out' /\
    r_expiresAt (out_result out') = r_expiresAt (out_result out) /\
    out_heap out' = out_heap out /\
    (r_stale (out_result out) = true -> r_stale (out_result out') = true).
Proof.
  destruct (executeRead (H := schema) 10 6 expiring (Named "Comment") false
              (mkReadOptions (VString "1") None)) as [out|] eqn:E;
    [|vm_compute in E; discriminate].
  destruct (executeRead_later (H := schema) (now := 10) (now' := 100) 6 expiring
              (Named "Comment") false (mkReadOptions (VString "1") None))
    with (out := out) as (out' & Hread & _ & _ & Hexp & _ & _ & _ & Hheap & Hst);
    [lia | exact E |].
  exists out, out'. auto.
Defined.

Lemma checkExpiresAt_commutes_witness :
  let ctx := st_ctx (initialState cyclic false None) in
  checkExpiresAt (checkExpiresAt ctx (Some 5)) (Some 3) =
  checkExpiresAt (checkExpiresAt ctx (Some 3)) (Some 5).
Proof.
  exact (checkExpiresAt_commutes
           (st_ctx (initialState cyclic false None)) 5 3 (c := -1) eq_refl).
Defined.


Lemma read_returns_on_object_stores_witness :
  exists fuel0 out,
    forall fuel, (fuel0 <= fuel)%nat ->
      executeRead 100 fuel cyclic (Named "Author") false
        (mkReadOptions (VString "a") None) = Some out.
Proof.
  apply read_returns_on_object_stores with (selSize := setSize).
  - apply sample_sel_decreases.
  - apply sample_all_flat.
  - apply sample_computed_flat.
  - intros entityID entity Hget. unfold get in Hget.
    revert entityID entity Hget.
    apply (bool_decide_unpack
             (map_Forall (fun _ entity =>
                            isObjectWithMeta (e_value entity) = true \/
                            isLeaf (e_value entity) = true)
                (entities cyclic))).
    vm_compute. exact I.
Defined.
